(** * Trigger handler: condition evaluation, rate limiting, action dispatch

    A shallow embedding of [examples/triggers/python/trigger_handler.py]
    (class [TriggerHandler]) and the properties of its evaluation and dispatch
    core.

    Conventions of the embedding:
    - Python values of type [Any] that reach the handler from JSON are the
      type [any]; finite floats are exact rationals (no arithmetic is done
      on them, only comparisons, which Python performs exactly); NaN and the
      infinities are left out.
    - [str] is [string]: the UTF-8 bytes of the text.  Byte-wise lexicographic
      order and byte-wise substring search agree with Python's code-point
      versions on well-formed UTF-8.
    - a Python [dict] whose iteration order matters is an association list
      with unique keys, kept in insertion order ([Module PyDict]);
      [trigger_stats] and the Redis keyspace, only ever read and written by
      key, are [gmap]s.
    - a Python exception is the [Raise] case of [res]; the time of the clock
      and the outcomes of the sinks are explicit inputs.
    - what the handler does to the outside is a list of [effect]s; a log
      line keeps its level and the fixed part of its text.
    - coroutines run one after the other: the tasks of a fire in the order of
      the action list, the triggers of an event in the order of the
      registry.  Interleavings of the event loop are not modelled. *)

From Stdlib Require Import ZArith QArith String Ascii List Bool Lia.
From stdpp Require Import gmap strings list.

Local Open Scope Z_scope.

(** ** Python dictionaries with insertion order *)

Module PyDict.
Section Dict.
Context {V : Type}.

(** [d.get(k)] *)
Fixpoint get (k : string) (d : list (string * V)) : option V :=
  match d with
  | [] => None
  | (k', v) :: d' => if String.eqb k k' then Some v else get k d'
  end.

(** [d[k] = v]: an existing key keeps its position, a new key goes last. *)
Fixpoint set (k : string) (v : V) (d : list (string * V)) : list (string * V) :=
  match d with
  | [] => [(k, v)]
  | (k', v') :: d' =>
      if String.eqb k k' then (k', v) :: d' else (k', v') :: set k v d'
  end.

(** [del d[k]] *)
Fixpoint del (k : string) (d : list (string * V)) : list (string * V) :=
  match d with
  | [] => []
  | (k', v') :: d' => if String.eqb k k' then d' else (k', v') :: del k d'
  end.

(** [k in d] *)
Definition mem (k : string) (d : list (string * V)) : bool :=
  match get k d with Some _ => true | None => false end.

(** [list(d.keys())] *)
Definition keys (d : list (string * V)) : list string := map fst d.
End Dict.
End PyDict.

(** ** Values and Python's comparison operators *)

#[warnings="-register-all"]
Inductive any : Type :=
  | VNone
  | VBool (b : bool)
  | VInt (z : Z)
  | VFloat (q : Q)
  | VStr (s : string)
  | VList (l : list any)
  | VDict (d : list (string * any)).

Inductive exn : Type :=
  | TypeError
  | SinkError (what : string).

Inductive res (A : Type) : Type :=
  | Ret (a : A)
  | Raise (e : exn).
Arguments Ret {A} a.
Arguments Raise {A} e.

Definition bind {A B} (m : res A) (f : A -> res B) : res B :=
  match m with
  | Ret a => f a
  | Raise e => Raise e
  end.

Notation "x <- m ;;; k" := (bind m (fun x => k))
  (at level 100, m at next level, right associativity).

(** [bool] is a subclass of [int]; numbers of the three types compare by
    value. *)
Definition num_of (v : any) : option Q :=
  match v with
  | VBool b => Some (inject_Z (if b then 1 else 0))
  | VInt z => Some (inject_Z z)
  | VFloat q => Some q
  | _ => None
  end.

(** [a == b] *)
Fixpoint py_eq (a b : any) : bool :=
  match a, b with
  | VNone, VNone => true
  | VStr s, VStr t => String.eqb s t
  | VList l, VList m =>
      (fix go (l m : list any) : bool :=
         match l, m with
         | [], [] => true
         | x :: l', y :: m' => py_eq x y && go l' m'
         | _, _ => false
         end) l m
  | VDict d, VDict e =>
      (length d =? length e)%nat &&
      (fix go (d : list (string * any)) : bool :=
         match d with
         | [] => true
         | (k, v) :: d' =>
             match PyDict.get k e with
             | Some w => py_eq v w
             | None => false
             end && go d'
         end) d
  | _, _ =>
      match num_of a, num_of b with
      | Some p, Some q => Qeq_bool p q
      | _, _ => false
      end
  end.

Inductive ordop : Type := OpLt | OpLe | OpGt | OpGe.

Definition holds (op : ordop) (c : comparison) : bool :=
  match op, c with
  | OpLt, Lt => true
  | OpLe, (Lt | Eq) => true
  | OpGt, Gt => true
  | OpGe, (Gt | Eq) => true
  | _, _ => false
  end.

(** [a < b], [a <= b], [a > b], [a >= b]; [None] is Python's [TypeError]
    ("not supported between instances of ..."). Lists compare at the first
    position where they differ, else by length. *)
Fixpoint py_order (op : ordop) (a b : any) : option bool :=
  match a, b with
  | VStr s, VStr t => Some (holds op (String.compare s t))
  | VList l, VList m =>
      (fix go (l m : list any) : option bool :=
         match l, m with
         | [], [] => Some (holds op Eq)
         | [], _ :: _ => Some (holds op Lt)
         | _ :: _, [] => Some (holds op Gt)
         | x :: l', y :: m' => if py_eq x y then go l' m' else py_order op x y
         end) l m
  | _, _ =>
      match num_of a, num_of b with
      | Some p, Some q => Some (holds op (p ?= q)%Q)
      | _, _ => None
      end
  end.

Definition compare_op (op : ordop) (a b : any) : res bool :=
  match py_order op a b with
  | Some r => Ret r
  | None => Raise TypeError
  end.

(** [needle in hay] on strings *)
Fixpoint is_substring (needle hay : string) : bool :=
  String.prefix needle hay ||
  match hay with
  | EmptyString => false
  | String _ hay' => is_substring needle hay'
  end.

(** [x in c]: substring test on a [str] (the left operand must be a [str]),
    equality with some element of a [list], key test on a [dict] (the left
    operand must be hashable); anything else is not a container. *)
Definition py_in (x c : any) : res bool :=
  match c with
  | VStr hay =>
      match x with
      | VStr needle => Ret (is_substring needle hay)
      | _ => Raise TypeError
      end
  | VList l => Ret (existsb (py_eq x) l)
  | VDict d =>
      match x with
      | VStr k => Ret (PyDict.mem k d)
      | VList _ | VDict _ => Raise TypeError
      | _ => Ret false
      end
  | _ => Raise TypeError
  end.

Definition py_not_in (x c : any) : res bool :=
  r <- py_in x c ;;; Ret (negb r).

(** ** Data model *)

(** [EventPayload]; [timestamp] is an instant on the clock's scale. The
    values of [metadata] are strings. *)
Record EventPayload : Type := {
  event_id : string;
  event_type : string;
  source : string;
  timestamp : Z;
  data : list (string * any);
  metadata : list (string * string)
}.

Inductive ConditionOperator : Type :=
  | EQ | NE | GT | LT | GTE | LTE | CONTAINS | REGEX | IN | NOT_IN.

Inductive ActionType : Type :=
  | HTTP | GRPC | KAFKA | REDIS | EMAIL | WEBHOOK.

Record Condition : Type := {
  field : string;
  operator : ConditionOperator;
  value : any
}.

Record Action : Type := {
  type : ActionType;
  target : string;
  payload : list (string * any);
  timeout : Q;
  retries : Z;
  headers : list (string * string)
}.

(** [TriggerConfig]; its [metadata] field is [trigger_metadata] here, the
    plain name being the event's. *)
Record TriggerConfig : Type := {
  name : string;
  conditions : list Condition;
  actions : list Action;
  enabled : bool;
  trigger_metadata : list (string * string);
  rate_limit : option Z;
  cooldown : option Q
}.

(** ** Condition evaluator *)

(** [s[n:]] *)
Fixpoint str_drop (n : nat) (s : string) : string :=
  match n, s with
  | O, _ => s
  | S n', String _ s' => str_drop n' s'
  | S _, EmptyString => EmptyString
  end.

(** [d.get(key)] as a Python value: a missing key gives [None]. *)
Definition get_or_none (key : string) (d : list (string * any)) : any :=
  match PyDict.get key d with
  | Some v => v
  | None => VNone
  end.

Definition _extract_value (field : string) (ev : EventPayload) : any :=
  if String.eqb field "event_type" then VStr (event_type ev)
  else if String.eqb field "source" then VStr (source ev)
  else if String.prefix "data." field then
    get_or_none (str_drop 5 field) (data ev)
  else if String.prefix "metadata." field then
    match PyDict.get (str_drop 9 field) (metadata ev) with
    | Some s => VStr s
    | None => VNone
    end
  else VNone.

Definition _evaluate_condition (condition : Condition) (ev : EventPayload)
  : res bool :=
  let v := _extract_value (field condition) ev in
  match operator condition with
  | EQ => Ret (py_eq v (value condition))
  | NE => Ret (negb (py_eq v (value condition)))
  | GT => compare_op OpGt v (value condition)
  | LT => compare_op OpLt v (value condition)
  | GTE => compare_op OpGe v (value condition)
  | LTE => compare_op OpLe v (value condition)
  | CONTAINS =>
      match v with
      | VStr _ => py_in (value condition) v
      | _ => Ret false
      end
  | IN => py_in v (value condition)
  | NOT_IN => py_not_in v (value condition)
  | REGEX => Ret false
  end.

Fixpoint _evaluate_conditions (conditions : list Condition) (ev : EventPayload)
  : res bool :=
  match conditions with
  | [] => Ret true
  | condition :: rest =>
      b <- _evaluate_condition condition ev ;;;
      if b then _evaluate_conditions rest ev else Ret false
  end.

(** ** Handler state *)

Record stats : Type := {
  executions : Z;
  successes : Z;
  failures : Z
}.

(** The Redis commands the handler uses ([GET], [INCR], [EXPIRE]) on
    integer-valued keys with an optional absolute expiry instant, in seconds.
    A key is there up to and including its expiry instant, and does not
    exist once the clock has passed it. *)
Module Redis.
Record entry : Type := { stored : Z; expires_at : option Z }.

Definition live (now : Z) (e : entry) : bool :=
  match expires_at e with
  | Some t => now <=? t
  | None => true
  end.

Definition find (now : Z) (key : string) (db : gmap string entry)
  : option entry :=
  match db !! key with
  | Some e => if live now e then Some e else None
  | None => None
  end.

Definition get (now : Z) (key : string) (db : gmap string entry) : option Z :=
  stored <$> find now key db.

Definition incr (now : Z) (key : string) (db : gmap string entry)
  : gmap string entry :=
  match find now key db with
  | Some e =>
      <[key := {| stored := stored e + 1; expires_at := expires_at e |}]> db
  | None => <[key := {| stored := 1; expires_at := None |}]> db
  end.

Definition expire (now : Z) (key : string) (seconds : Z)
  (db : gmap string entry) : gmap string entry :=
  match find now key db with
  | Some e =>
      <[key := {| stored := stored e;
                  expires_at := Some (now + seconds) |}]> db
  | None => db
  end.
End Redis.

(** The fields of [TriggerHandler] that the core reads and writes.
    [redis_client] is [None] until [initialize] has run. The HTTP session
    and the Kafka producer only matter to the outcome of a sink call, which
    is an input of the model. *)
Record TriggerHandler : Type := {
  redis_client : option (gmap string Redis.entry);
  triggers : list (string * TriggerConfig);
  trigger_stats : gmap string stats
}.

Definition with_redis (h : TriggerHandler) (db : gmap string Redis.entry)
  : TriggerHandler :=
  {| redis_client := Some db;
     triggers := triggers h;
     trigger_stats := trigger_stats h |}.

Definition with_stats (h : TriggerHandler) (ts : gmap string stats)
  : TriggerHandler :=
  {| redis_client := redis_client h;
     triggers := triggers h;
     trigger_stats := ts |}.

Definition with_triggers (h : TriggerHandler)
  (trs : list (string * TriggerConfig)) : TriggerHandler :=
  {| redis_client := redis_client h;
     triggers := trs;
     trigger_stats := trigger_stats h |}.

(** ** Rate limiter *)

Definition rate_limit_key (trigger : TriggerConfig) : string :=
  String.append "rate_limit:" (name trigger).

(** First component: the gate's answer. [not trigger.rate_limit] holds for
    [None] and for [0]. This is the gate when both Redis round trips answer
    and no other fire touches the counter between them; [gate_get],
    [gate_pipeline] and [_check_rate_limit_with] further down give the two
    round trips apart and with their failures. *)
Definition _check_rate_limit (h : TriggerHandler) (now : Z)
  (trigger : TriggerConfig) : bool * TriggerHandler :=
  match rate_limit trigger, redis_client h with
  | Some limit, Some db =>
      if limit =? 0 then (true, h)
      else
        let key := rate_limit_key trigger in
        match Redis.get now key db with
        | Some current =>
            if limit <=? current then (false, h)
            else
              (true,
               with_redis h (Redis.expire now key 60 (Redis.incr now key db)))
        | None =>
            (true,
             with_redis h (Redis.expire now key 60 (Redis.incr now key db)))
        end
  | _, _ => (true, h)
  end.

(** ** Action dispatcher *)

(** What goes out to a sink: the values of the action's payload, and under
    ["event"] the dictionary [payload.dict()] of the event. *)
#[warnings="-register-all"]
Inductive obj : Type :=
  | OAny (v : any)
  | ODatetime (t : Z)
  | ODict (d : list (string * obj)).

(** [payload.dict()]: the six fields in declaration order. *)
Definition dict_of_event (ev : EventPayload) : obj :=
  ODict [ ("event_id", OAny (VStr (event_id ev)));
          ("event_type", OAny (VStr (event_type ev)));
          ("source", OAny (VStr (source ev)));
          ("timestamp", ODatetime (timestamp ev));
          ("data", OAny (VDict (data ev)));
          ("metadata", OAny (VDict (map (fun kv => (fst kv, VStr (snd kv)))
                                        (metadata ev)))) ]%string.

(** [{**action.payload, "event": payload.dict()}]: a new dictionary with
    the items of the payload in their order, in which ["event"] is then
    set. *)
Definition merged_message (action : Action) (ev : EventPayload)
  : list (string * obj) :=
  PyDict.set "event" (dict_of_event ev)
    (map (fun kv => (fst kv, OAny (snd kv))) (payload action)).

Inductive level : Type := DEBUG | INFO | WARNING | ERROR.

(** [Send kind to message]: the sink call of an action of that kind is
    made for the target [to] on [message], the serialisation of the message
    being part of the call: [session.post(to, json=message, ...)],
    [kafka_producer.send(to, message)] with its [value_serializer],
    [redis_client.publish(to, json.dumps(message))]. It records which message
    the call is about, not that the message went out: what came of the call
    is its answer. *)
Inductive effect : Type :=
  | Send (kind : ActionType) (to : string) (message : list (string * obj))
  | Sleep (seconds : Z)
  | Log (lvl : level) (what : string).

(** In the four sink calls below [answer] is what came of the call for
    which the message was built: [None] when it went through, [Some e] when
    it raised [e] (unreachable sink, non-success response, timeout, client
    not initialised, a message that does not serialise). The message holds
    the event's [timestamp] as a [datetime], on which the [json.dumps] of
    [_execute_redis_action], and a client that serialises the same way,
    raises [TypeError] before anything goes out: with the source as it is,
    such an attempt has an answer [Some TypeError]. The answers are an input
    here, so what is proved holds for every answer, these included, and
    nothing proved relies on an answer [None] being possible. *)
Definition _execute_http_action (action : Action) (ev : EventPayload)
  (answer : option exn) : res unit * list effect :=
  let merged_payload := merged_message action ev in
  match answer with
  | None => (Ret tt, [Send HTTP (target action) merged_payload;
                      Log DEBUG "HTTP response"])
  | Some e => (Raise e, [Send HTTP (target action) merged_payload])
  end.

Definition _execute_kafka_action (action : Action) (ev : EventPayload)
  (answer : option exn) : res unit * list effect :=
  let message := merged_message action ev in
  match answer with
  | None => (Ret tt, [Send KAFKA (target action) message;
                      Log DEBUG "Kafka message sent"])
  | Some e => (Raise e, [Send KAFKA (target action) message])
  end.

Definition _execute_redis_action (action : Action) (ev : EventPayload)
  (answer : option exn) : res unit * list effect :=
  let message := merged_message action ev in
  match answer with
  | None => (Ret tt, [Send REDIS (target action) message;
                      Log DEBUG "Redis message published"])
  | Some e => (Raise e, [Send REDIS (target action) message])
  end.

(** Log only: nothing is sent and nothing can fail. *)
Definition _execute_grpc_action (action : Action) (ev : EventPayload)
  : res unit * list effect :=
  (Ret tt, [Log INFO "gRPC action would be executed"]).

(** The [if]/[elif] chain on [action.type] inside the loop: the call made
    for a kind that has one, [None] for the [else] branch. *)
Definition dispatch (action : Action) (ev : EventPayload)
  (answer : option exn) : option (res unit * list effect) :=
  match type action with
  | HTTP => Some (_execute_http_action action ev answer)
  | KAFKA => Some (_execute_kafka_action action ev answer)
  | REDIS => Some (_execute_redis_action action ev answer)
  | GRPC => Some (_execute_grpc_action action ev)
  | _ => None
  end.

(** The [for attempt in range(action.retries + 1)] loop with [n] iterations
    left. Leaving the loop without [return] returns normally. *)
Fixpoint attempts (n : nat) (attempt : Z) (action : Action)
  (ev : EventPayload) (sink : Z -> option exn) : res unit * list effect :=
  match n with
  | O => (Ret tt, [])
  | S n' =>
      match dispatch action ev (sink attempt) with
      | None => (Ret tt, [Log WARNING "Unknown action type"])
      | Some (Ret _, effs) =>
          (Ret tt, effs ++ [Log INFO "Action executed successfully"])
      | Some (Raise e, effs) =>
          if attempt =? retries action
          then (Raise e, effs ++ [Log ERROR "Action failed"])
          else
            let '(r, rest) := attempts n' (attempt + 1) action ev sink in
            (r, effs ++ [Log ERROR "Action failed"; Sleep (2 ^ attempt)]
                  ++ rest)
      end
  end.

(** [sink attempt] is the sink's answer to the attempt numbered [attempt]
    (from 0). *)
Definition _execute_action (action : Action) (ev : EventPayload)
  (sink : Z -> option exn) : res unit * list effect :=
  attempts (Z.to_nat (retries action + 1)) 0 action ev sink.

(** ** Trigger orchestrator *)

Definition zero_stats : stats :=
  {| executions := 0; successes := 0; failures := 0 |}.

Definition stats_of (h : TriggerHandler) (trigger_name : string) : stats :=
  default zero_stats (trigger_stats h !! trigger_name).

Definition is_exception {A} (r : res A) : bool :=
  match r with
  | Ret _ => false
  | Raise _ => true
  end.

(** [sum(1 for r in results if not isinstance(r, Exception))] *)
Definition count_successes {A} (results : list (res A)) : Z :=
  Z.of_nat (length (List.filter (fun r => negb (is_exception r)) results)).

(** The tasks of one fire: action number [i] runs against [sinks i]. The
    effects of the tasks are listed task after task; how the event loop
    interleaves them is not modelled. *)
Definition run_actions (trigger : TriggerConfig) (ev : EventPayload)
  (sinks : nat -> Z -> option exn) : list (res unit * list effect) :=
  imap (fun i action => _execute_action action ev (sinks i)) (actions trigger).

Definition _execute_trigger (h : TriggerHandler) (now : Z)
  (trigger : TriggerConfig) (ev : EventPayload)
  (sinks : nat -> Z -> option exn) : TriggerHandler * list effect :=
  if negb (enabled trigger) then (h, [Log DEBUG "Trigger is disabled"])
  else
    let '(ok, h1) := _check_rate_limit h now trigger in
    if negb ok then (h1, [Log WARNING "Rate limit exceeded"])
    else
      let s0 := stats_of h1 (name trigger) in
      let s1 := {| executions := executions s0 + 1;
                   successes := successes s0;
                   failures := failures s0 |} in
      let tasks := run_actions trigger ev sinks in
      let results := map fst tasks in
      let successes' := count_successes results in
      let failures' := Z.of_nat (length results) - successes' in
      let s2 := {| executions := executions s1;
                   successes := successes s1 + successes';
                   failures := failures s1 + failures' |} in
      (with_stats h1 (<[name trigger := s2]> (trigger_stats h1)),
       [Log INFO "Executing trigger"] ++ concat (map snd tasks)
         ++ [Log INFO "Trigger completed"]).

(** What [process_event] is run against: the instant at which the gate of
    the [i]-th matching trigger is consulted, and the answers of the sinks,
    by matching trigger, action and attempt. *)
Record world : Type := {
  clock : nat -> Z;
  sink : nat -> nat -> Z -> option exn
}.

(** The first loop of [process_event]; an exception of the evaluator leaves
    the loop. *)
Fixpoint matching_triggers (trs : list (string * TriggerConfig))
  (ev : EventPayload) : res (list TriggerConfig) :=
  match trs with
  | [] => Ret []
  | (_, trigger_config) :: rest =>
      b <- _evaluate_conditions (conditions trigger_config) ev ;;;
      ms <- matching_triggers rest ev ;;;
      Ret (if b then trigger_config :: ms else ms)
  end.

(** The second loop; the effects are grouped by the trigger they belong
    to. *)
Fixpoint execute_matching (h : TriggerHandler) (w : world) (i : nat)
  (ms : list TriggerConfig) (ev : EventPayload)
  : TriggerHandler * list (string * list effect) :=
  match ms with
  | [] => (h, [])
  | trigger :: rest =>
      let '(h1, effs) := _execute_trigger h (clock w i) trigger ev (sink w i) in
      let '(h2, tr) := execute_matching h1 w (S i) rest ev in
      (h2, (name trigger, effs) :: tr)
  end.

Definition process_event (h : TriggerHandler) (w : world) (ev : EventPayload)
  (source : string) : res unit * TriggerHandler * list (string * list effect) :=
  match matching_triggers (triggers h) ev with
  | Raise e => (Raise e, h, [])
  | Ret ms =>
      let '(h', tr) := execute_matching h w 0 ms ev in
      (Ret tt, h', tr)
  end.

(** ** Registry *)

(** The [add_trigger] route, from the parsed configuration on. *)
Definition add_trigger (h : TriggerHandler) (trigger_name : string)
  (trigger_config : TriggerConfig) : TriggerHandler :=
  let renamed :=
    {| name := trigger_name;
       conditions := conditions trigger_config;
       actions := actions trigger_config;
       enabled := enabled trigger_config;
       trigger_metadata := trigger_metadata trigger_config;
       rate_limit := rate_limit trigger_config;
       cooldown := cooldown trigger_config |} in
  with_triggers h (PyDict.set trigger_name renamed (triggers h)).

(** The [remove_trigger] route; [None] is the 404 answer. *)
Definition remove_trigger (h : TriggerHandler) (trigger_name : string)
  : option TriggerHandler :=
  if PyDict.mem trigger_name (triggers h)
  then Some (with_triggers h (PyDict.del trigger_name (triggers h)))
  else None.

(** [Action(...)] with the defaults of the dataclass for [timeout] and
    [retries]. *)
Definition mk_action (ty : ActionType) (tgt : string)
  (pl : list (string * any)) (hd : list (string * string)) : Action :=
  {| type := ty; target := tgt; payload := pl; timeout := 30;
     retries := 3; headers := hd |}.

Definition mk_condition (f : string) (op : ConditionOperator) (v : any)
  : Condition :=
  {| field := f; operator := op; value := v |}.

Definition user_welcome : TriggerConfig :=
  {| name := "user-welcome";
     conditions :=
       [ mk_condition "event_type" EQ (VStr "user.created");
         mk_condition "data.email" CONTAINS (VStr "@") ];
     actions :=
       [ mk_action HTTP "https://api.example.com/welcome"
           [("template", VStr "welcome"); ("send_immediately", VBool true)]
           [("Authorization", "Bearer ${WELCOME_API_TOKEN}")];
         mk_action KAFKA "user-events" [("action", VStr "welcome_sent")] [] ];
     enabled := true;
     trigger_metadata := [];
     rate_limit := None;
     cooldown := None |}%string.

(** The first four characters of the text, as the bytes of the source
    file. *)
Definition deployment_text : string :=
  String.append
    (string_of_list_ascii
       (map ascii_of_nat [195; 176; 197; 184; 197; 161; 226; 130; 172]%nat))
    " Deployment completed!".

Definition deployment_notify : TriggerConfig :=
  {| name := "deployment-notify";
     conditions :=
       [ mk_condition "event_type" EQ (VStr "deployment.completed");
         mk_condition "data.environment" IN
           (VList [VStr "staging"; VStr "production"]) ];
     actions :=
       [ mk_action HTTP "https://hooks.slack.com/services/YOUR/SLACK/WEBHOOK"
           [("text", VStr deployment_text); ("channel", VStr "#deployments")]
           [] ];
     enabled := true;
     trigger_metadata := [];
     rate_limit := None;
     cooldown := None |}%string.

Definition critical_alert : TriggerConfig :=
  {| name := "critical-alert";
     conditions :=
       [ mk_condition "event_type" EQ (VStr "alert.critical");
         mk_condition "data.severity" GTE (VInt 8) ];
     actions :=
       [ mk_action HTTP "https://api.pagerduty.com/incidents"
           [("urgency", VStr "high")]
           [("Authorization", "Token ${PAGERDUTY_TOKEN}")];
         mk_action REDIS "critical-alerts" [("alert_level", VStr "P1")] [] ];
     enabled := true;
     trigger_metadata := [];
     rate_limit := Some 10;
     cooldown := Some 300%Q |}%string.

Definition data_pipeline : TriggerConfig :=
  {| name := "data-pipeline";
     conditions :=
       [ mk_condition "event_type" EQ (VStr "data.file_uploaded");
         mk_condition "data.file_size" GT (VInt 1024);
         mk_condition "data.file_type" IN
           (VList [VStr "csv"; VStr "json"; VStr "parquet"]) ];
     actions :=
       [ mk_action KAFKA "data-processing"
           [("priority", VStr "normal"); ("auto_process", VBool true)] [];
         mk_action GRPC "data-processor:50051"
           [("method", VStr "ProcessFile")] [] ];
     enabled := true;
     trigger_metadata := [];
     rate_limit := None;
     cooldown := None |}%string.

Definition _setup_default_triggers (h : TriggerHandler) : TriggerHandler :=
  with_triggers h
    (PyDict.set "data-pipeline" data_pipeline
       (PyDict.set "critical-alert" critical_alert
          (PyDict.set "deployment-notify" deployment_notify
             (PyDict.set "user-welcome" user_welcome (triggers h))))).

(** [TriggerHandler()]: no client yet, the default triggers, no
    statistics. *)
Definition __init__ : TriggerHandler :=
  _setup_default_triggers
    {| redis_client := None; triggers := []; trigger_stats := ∅ |}.

(** [initialize()] connects the clients; [db] is the keyspace of the Redis
    server at that time. *)
Definition initialize (h : TriggerHandler) (db : gmap string Redis.entry)
  : TriggerHandler :=
  with_redis h db.

(** ** Observations on effect lists *)

Definition is_send (e : effect) : bool :=
  match e with
  | Send _ _ _ => true
  | _ => false
  end.

(** The sink calls made. *)
Definition sends (effs : list effect) : list effect := List.filter is_send effs.

(** The backoff delays, in order. *)
Fixpoint sleeps (effs : list effect) : list Z :=
  match effs with
  | [] => []
  | Sleep s :: rest => s :: sleeps rest
  | _ :: rest => sleeps rest
  end.

Inductive step : Type := Attempt | Wait (seconds : Z).

(** Attempts and delays in the order they happen, log lines dropped. *)
Fixpoint timeline (effs : list effect) : list step :=
  match effs with
  | [] => []
  | Send _ _ _ :: rest => Attempt :: timeline rest
  | Sleep s :: rest => Wait s :: timeline rest
  | Log _ _ :: rest => timeline rest
  end.

(** [j] failed attempts numbered from [attempt], each followed by its delay
    [2 ^ attempt], then one more attempt. *)
Fixpoint backoff_from (attempt : Z) (j : nat) : list step :=
  match j with
  | O => [Attempt]
  | S j' => Attempt :: Wait (2 ^ attempt) :: backoff_from (attempt + 1) j'
  end.

(** The kinds for which the loop calls a sink. *)
Definition sendable (action : Action) : bool :=
  match type action with
  | HTTP | KAFKA | REDIS => true
  | _ => false
  end.

(** The kinds that fall into the [else] branch of the loop. *)
Definition unknown_kind (action : Action) : bool :=
  match type action with
  | EMAIL | WEBHOOK => true
  | _ => false
  end.

Definition count_attempts (effs : list effect) : Z :=
  Z.of_nat (length (sends effs)).

(** Names equal keys and no key occurs twice: what [add_trigger] and
    [_setup_default_triggers] maintain. *)
Fixpoint registry_ok (trs : list (string * TriggerConfig)) : bool :=
  match trs with
  | [] => true
  | (k, cfg) :: rest =>
      String.eqb k (name cfg) && negb (PyDict.mem k rest) && registry_ok rest
  end.

(** Fires of one trigger at the given instants, one after the other, each
    against its own sinks. *)
Fixpoint fire_all (h : TriggerHandler) (trigger : TriggerConfig)
  (ev : EventPayload) (fires : list (Z * (nat -> Z -> option exn)))
  : TriggerHandler :=
  match fires with
  | [] => h
  | (now, sinks) :: rest =>
      fire_all (fst (_execute_trigger h now trigger ev sinks)) trigger ev rest
  end.


(** The instant of the last fire, [prev] when there is none. *)
Fixpoint last_instant (prev : Z) (fires : list (Z * (nat -> Z -> option exn)))
  : Z :=
  match fires with
  | [] => prev
  | (now, _) :: rest => last_instant now rest
  end.

(** ** Auxiliary definitions and sample inputs *)

Definition is_none (v : any) : bool :=
  match v with
  | VNone => true
  | _ => false
  end.

Definition alert_without_severity : EventPayload :=
  {| event_id := "evt-1"; event_type := "alert.critical"; source := "generic";
     timestamp := 0; data := []; metadata := [] |}.

Definition alert_severity_9 : EventPayload :=
  {| event_id := "evt-2"; event_type := "alert.critical"; source := "generic";
     timestamp := 0; data := [("severity", VInt 9)]; metadata := [] |}.

Definition sinks_up : nat -> Z -> option exn := fun _ _ => None.

Definition calm_world : world :=
  {| clock := fun _ => 0; sink := fun _ => sinks_up |}.

(** Delays and attempts can be read off the timeline. *)
Definition waits (tl : list step) : list Z :=
  flat_map (fun s => match s with Wait z => [z] | Attempt => [] end) tl.

Definition tries (tl : list step) : nat :=
  length
    (List.filter (fun s => match s with Attempt => true | _ => false end) tl).

Definition sink_down : Z -> option exn :=
  fun _ => Some (SinkError "unreachable").

Definition sink_up_at_2 : Z -> option exn :=
  fun i => if i =? 2 then None else Some (SinkError "unreachable").

Definition page_action : Action :=
  mk_action HTTP "https://api.pagerduty.com/incidents"
    [("urgency", VStr "high")] [].

Definition shadowing_action : Action :=
  mk_action KAFKA "user-events"
    [("action", VStr "welcome_sent"); ("event", VStr "mine"); ("n", VInt 1)] [].

(** The statistics of a trigger after a fire that added [s] successes and
    [f] failures. *)
Definition bump (s0 : stats) (s f : Z) : stats :=
  {| executions := executions s0 + 1;
     successes := successes s0 + s;
     failures := failures s0 + f |}.

Definition outcomes (t : TriggerConfig) (ev : EventPayload)
  (sinks : nat -> Z -> option exn) : list (res unit) :=
  map fst (run_actions t ev sinks).

Definition mail_action : Action :=
  mk_action EMAIL "ops@example.com" [("subject", VStr "alert")] [].

Definition mail_trigger : TriggerConfig :=
  {| name := "mail-ops";
     conditions := [];
     actions := [mail_action];
     enabled := true;
     trigger_metadata := [];
     rate_limit := None;
     cooldown := None |}.

Definition limited_once : TriggerConfig :=
  {| name := "limited-once";
     conditions := [];
     actions := [page_action];
     enabled := true;
     trigger_metadata := [];
     rate_limit := Some 1;
     cooldown := None |}.

Definition set_cooldown (t : TriggerConfig) (c : option Q) : TriggerConfig :=
  {| name := name t;
     conditions := conditions t;
     actions := actions t;
     enabled := enabled t;
     trigger_metadata := trigger_metadata t;
     rate_limit := rate_limit t;
     cooldown := c |}.

Definition limited_zero : TriggerConfig :=
  {| name := "limited-zero";
     conditions := [];
     actions := [page_action];
     enabled := true;
     trigger_metadata := [];
     rate_limit := Some 0;
     cooldown := None |}.

Definition limited_twice : TriggerConfig :=
  {| name := "limited-twice";
     conditions := [];
     actions := [page_action];
     enabled := true;
     trigger_metadata := [];
     rate_limit := Some 2;
     cooldown := None |}.

Definition muted_alert : TriggerConfig :=
  {| name := "muted-alert";
     conditions := [ mk_condition "event_type" EQ (VStr "alert.critical") ];
     actions := [page_action];
     enabled := false;
     trigger_metadata := [];
     rate_limit := None;
     cooldown := None |}.

(** ** Trigger configuration parser *)

(** The exceptions [_parse_trigger_config] can raise: [KeyError],
    [ValueError] and [TypeError], the last one named [ConfigTypeError]
    here. *)
Inductive config_error : Type :=
  | KeyError (key : string)
  | ValueError
  | ConfigTypeError.

Inductive parsed (A : Type) : Type :=
  | Parsed (a : A)
  | Invalid (e : config_error).
Arguments Parsed {A} a.
Arguments Invalid {A} e.

Definition parsed_bind {A B} (m : parsed A) (f : A -> parsed B) : parsed B :=
  match m with
  | Parsed a => f a
  | Invalid e => Invalid e
  end.

Notation "x <~ m ;;; k" := (parsed_bind m (fun x => k))
  (at level 100, m at next level, right associativity).

(** The elements of [for c in v]: those of a list, the keys of a dict, the
    one-character strings of a string; any other value is not iterable
    (Python's [TypeError], here [ConfigTypeError]). Of the elements of a
    string only their being strings matters below. *)
Definition py_iter (v : any) : parsed (list any) :=
  match v with
  | VList l => Parsed l
  | VDict d => Parsed (map (fun kv => VStr (fst kv)) d)
  | VStr s =>
      Parsed (map (fun c => VStr (String c EmptyString)) (list_ascii_of_string s))
  | _ => Invalid ConfigTypeError
  end.

(** [c[key]] for a string [key]: the value of a dict, [KeyError] when the
    dict has no such key, [TypeError] on anything but a dict. *)
Definition subscript (c : any) (key : string) : parsed any :=
  match c with
  | VDict d =>
      match PyDict.get key d with
      | Some v => Parsed v
      | None => Invalid (KeyError key)
      end
  | _ => Invalid ConfigTypeError
  end.

(** [d.get(key, default)] *)
Definition get_default (key : string) (default : any) (d : list (string * any))
  : any :=
  match PyDict.get key d with
  | Some v => v
  | None => default
  end.

(** The values of the enumeration [ConditionOperator]. *)
Definition operator_value (op : ConditionOperator) : string :=
  match op with
  | EQ => "eq" | NE => "ne" | GT => "gt" | LT => "lt" | GTE => "gte"
  | LTE => "lte" | CONTAINS => "contains" | REGEX => "regex" | IN => "in"
  | NOT_IN => "not_in"
  end.

(** The values of the enumeration [ActionType]. *)
Definition action_type_value (ty : ActionType) : string :=
  match ty with
  | HTTP => "http" | GRPC => "grpc" | KAFKA => "kafka" | REDIS => "redis"
  | EMAIL => "email" | WEBHOOK => "webhook"
  end.

(** [ConditionOperator(v)]: the member whose value equals [v], else
    [ValueError]. *)
Definition ConditionOperator_of (v : any) : parsed ConditionOperator :=
  match v with
  | VStr s =>
      match
        List.find (fun op => String.eqb s (operator_value op))
          [EQ; NE; GT; LT; GTE; LTE; CONTAINS; REGEX; IN; NOT_IN]
      with
      | Some op => Parsed op
      | None => Invalid ValueError
      end
  | _ => Invalid ValueError
  end.

(** [ActionType(v)] *)
Definition ActionType_of (v : any) : parsed ActionType :=
  match v with
  | VStr s =>
      match
        List.find (fun ty => String.eqb s (action_type_value ty))
          [HTTP; GRPC; KAFKA; REDIS; EMAIL; WEBHOOK]
      with
      | Some ty => Parsed ty
      | None => Invalid ValueError
      end
  | _ => Invalid ValueError
  end.

(** The dataclasses as the parser fills them: it checks the two enumerated
    fields only and stores every other value as it comes. *)
Record RawCondition : Type := {
  raw_field : any;
  raw_operator : ConditionOperator;
  raw_value : any
}.

Record RawAction : Type := {
  raw_type : ActionType;
  raw_target : any;
  raw_payload : any;
  raw_timeout : any;
  raw_retries : any;
  raw_headers : any
}.

Record RawTriggerConfig : Type := {
  raw_name : any;
  raw_conditions : list RawCondition;
  raw_actions : list RawAction;
  raw_enabled : any;
  raw_metadata : any;
  raw_rate_limit : any;
  raw_cooldown : any
}.

(** [Condition(field=c["field"], operator=ConditionOperator(c["operator"]),
    value=c["value"])], the arguments evaluated from left to right. *)
Definition parse_condition (c : any) : parsed RawCondition :=
  f <~ subscript c "field" ;;;
  o <~ subscript c "operator" ;;;
  op <~ ConditionOperator_of o ;;;
  v <~ subscript c "value" ;;;
  Parsed {| raw_field := f; raw_operator := op; raw_value := v |}.

(** [Action(type=ActionType(a["type"]), target=a["target"],
    payload=a.get("payload", {}), ...)]; once [a["type"]] has been read
    [a] is a dict. *)
Definition parse_action (a : any) : parsed RawAction :=
  t <~ subscript a "type" ;;;
  ty <~ ActionType_of t ;;;
  tgt <~ subscript a "target" ;;;
  match a with
  | VDict d =>
      Parsed {| raw_type := ty;
                raw_target := tgt;
                raw_payload := get_default "payload" (VDict []) d;
                raw_timeout := get_default "timeout" (VFloat 30) d;
                raw_retries := get_default "retries" (VInt 3) d;
                raw_headers := get_default "headers" (VDict []) d |}
  | _ => Invalid ConfigTypeError
  end.

(** A list comprehension [[f(x) for x in xs]]: the first exception ends
    it. *)
Fixpoint parse_each {A} (f : any -> parsed A) (xs : list any) : parsed (list A) :=
  match xs with
  | [] => Parsed []
  | x :: rest =>
      y <~ f x ;;;
      ys <~ parse_each f rest ;;;
      Parsed (y :: ys)
  end.

Definition _parse_trigger_config (config : list (string * any))
  : parsed RawTriggerConfig :=
  cs <~ py_iter (get_default "conditions" (VList []) config) ;;;
  conditions <~ parse_each parse_condition cs ;;;
  acts <~ py_iter (get_default "actions" (VList []) config) ;;;
  actions <~ parse_each parse_action acts ;;;
  n <~ subscript (VDict config) "name" ;;;
  Parsed {| raw_name := n;
            raw_conditions := conditions;
            raw_actions := actions;
            raw_enabled := get_default "enabled" (VBool true) config;
            raw_metadata := get_default "metadata" (VDict []) config;
            raw_rate_limit := get_or_none "rate_limit" config;
            raw_cooldown := get_or_none "cooldown" config |}.

(** *** Configurations that fit the declared types *)

Definition as_str (v : any) : option string :=
  match v with
  | VStr s => Some s
  | _ => None
  end.

Definition as_int (v : any) : option Z :=
  match v with
  | VInt z => Some z
  | _ => None
  end.

Definition as_float (v : any) : option Q :=
  match v with
  | VFloat q => Some q
  | VInt z => Some (inject_Z z)
  | _ => None
  end.

Definition as_bool (v : any) : option bool :=
  match v with
  | VBool b => Some b
  | _ => None
  end.

Definition as_dict (v : any) : option (list (string * any)) :=
  match v with
  | VDict d => Some d
  | _ => None
  end.

Fixpoint str_items (d : list (string * any)) : option (list (string * string)) :=
  match d with
  | [] => Some []
  | (k, VStr s) :: rest =>
      match str_items rest with
      | Some items => Some ((k, s) :: items)
      | None => None
      end
  | _ :: _ => None
  end.

Definition as_str_dict (v : any) : option (list (string * string)) :=
  match v with
  | VDict d => str_items d
  | _ => None
  end.

Definition as_optional {A} (f : any -> option A) (v : any) : option (option A) :=
  match v with
  | VNone => Some None
  | _ =>
      match f v with
      | Some a => Some (Some a)
      | None => None
      end
  end.

(** The typed reading of what the parser stored: [None] when a field holds
    a value of another type than the dataclass declares. The parser accepts
    such configurations; the handler would then hold a trigger that the
    records of this development do not represent. *)
Definition conform_condition (c : RawCondition) : option Condition :=
  f ← as_str (raw_field c);
  Some {| field := f; operator := raw_operator c; value := raw_value c |}.

Definition conform_action (a : RawAction) : option Action :=
  tgt ← as_str (raw_target a);
  pl ← as_dict (raw_payload a);
  tmo ← as_float (raw_timeout a);
  r ← as_int (raw_retries a);
  hd ← as_str_dict (raw_headers a);
  Some {| type := raw_type a; target := tgt; payload := pl; timeout := tmo;
          retries := r; headers := hd |}.

Definition conform (r : RawTriggerConfig) : option TriggerConfig :=
  n ← as_str (raw_name r);
  cs ← mapM conform_condition (raw_conditions r);
  acts ← mapM conform_action (raw_actions r);
  en ← as_bool (raw_enabled r);
  md ← as_str_dict (raw_metadata r);
  rl ← as_optional as_int (raw_rate_limit r);
  cd ← as_optional as_float (raw_cooldown r);
  Some {| name := n; conditions := cs; actions := acts; enabled := en;
          trigger_metadata := md; rate_limit := rl; cooldown := cd |}.

(** The answers of the route [POST /triggers/{trigger_name}]: "created"
    with the handler it leaves, or status 400 carrying the exception of the
    parser, the handler being as it was. *)
Inductive response : Type :=
  | Created (h : TriggerHandler)
  | BadRequest (e : config_error).

(** The whole route: parse, then [add_trigger]. [None] when the parsed
    configuration does not fit the declared types (see [conform]). *)
Definition add_trigger_request (h : TriggerHandler) (trigger_name : string)
  (config : list (string * any)) : option response :=
  match _parse_trigger_config config with
  | Invalid e => Some (BadRequest e)
  | Parsed raw =>
      match conform raw with
      | Some trigger_config =>
          Some (Created (add_trigger h trigger_name trigger_config))
      | None => None
      end
  end.

(** The operations of the admin surface, to be run in sequence. *)
Inductive admin_op : Type :=
  | AddTrigger (trigger_name : string) (trigger_config : TriggerConfig)
  | RemoveTrigger (trigger_name : string).

Definition run_admin_op (h : TriggerHandler) (op : admin_op) : TriggerHandler :=
  match op with
  | AddTrigger n cfg => add_trigger h n cfg
  | RemoveTrigger n =>
      match remove_trigger h n with
      | Some h' => h'
      | None => h
      end
  end.

Definition run_admin_ops (h : TriggerHandler) (ops : list admin_op)
  : TriggerHandler :=
  fold_left run_admin_op ops h.

(** The route [GET /triggers]: the names in registration order and the
    statistics. *)
Definition list_triggers (h : TriggerHandler) : list string * gmap string stats :=
  (PyDict.keys (triggers h), trigger_stats h).

(** The seconds slept in all. *)
Definition total_sleep (effs : list effect) : Z :=
  fold_right Z.add 0 (sleeps effs).

(** Each instant is less than 60 seconds after the one before it, [prev]
    for the first. *)
Fixpoint paced (prev : Z) (fires : list (Z * (nat -> Z -> option exn))) : bool :=
  match fires with
  | [] => true
  | (now, _) :: rest => (prev <=? now) && (now <? prev + 60) && paced now rest
  end.

(** The counter of a trigger as [GET] sees it at [now]; [None] also when
    there is no client. *)
Definition counter_at (h : TriggerHandler) (now : Z) (trigger : TriggerConfig)
  : option Z :=
  redis_client h ≫= Redis.get now (rate_limit_key trigger).

(** The counter stored for a trigger, expired or not, is at most [limit]. *)
Definition counter_within (limit : Z) (h : TriggerHandler)
  (trigger : TriggerConfig) : Prop :=
  forall db e,
    redis_client h = Some db ->
    db !! rate_limit_key trigger = Some e ->
    Redis.stored e <= limit.

(** The triggers [process_event] appends to [matching_triggers]: those whose
    conditions are all true. *)
Definition matches (ev : EventPayload) (trigger : TriggerConfig) : bool :=
  match _evaluate_conditions (conditions trigger) ev with
  | Ret true => true
  | _ => false
  end.

(** Componentwise order on statistics. *)
Definition stats_le (s s' : stats) : Prop :=
  executions s <= executions s' /\
  successes s <= successes s' /\
  failures s <= failures s'.

(** The configuration [add_trigger] stores: [trigger_config] under the
    name of the route. *)
Definition renamed (trigger_name : string) (trigger_config : TriggerConfig)
  : TriggerConfig :=
  {| name := trigger_name;
     conditions := conditions trigger_config;
     actions := actions trigger_config;
     enabled := enabled trigger_config;
     trigger_metadata := trigger_metadata trigger_config;
     rate_limit := rate_limit trigger_config;
     cooldown := cooldown trigger_config |}.

(** The configuration that spells out every field of a trigger, in the
    shape the parser reads. *)
Definition str_dict (d : list (string * string)) : any :=
  VDict (map (fun kv => (fst kv, VStr (snd kv))) d).

Definition condition_config (c : Condition) : any :=
  VDict [ ("field", VStr (field c));
          ("operator", VStr (operator_value (operator c)));
          ("value", value c) ].

Definition action_config (a : Action) : any :=
  VDict [ ("type", VStr (action_type_value (type a)));
          ("target", VStr (target a));
          ("payload", VDict (payload a));
          ("timeout", VFloat (timeout a));
          ("retries", VInt (retries a));
          ("headers", str_dict (headers a)) ].

Definition optional_config {A} (f : A -> any) (o : option A) : any :=
  match o with
  | Some a => f a
  | None => VNone
  end.

Definition trigger_config_of (t : TriggerConfig) : list (string * any) :=
  [ ("name", VStr (name t));
    ("conditions", VList (map condition_config (conditions t)));
    ("actions", VList (map action_config (actions t)));
    ("enabled", VBool (enabled t));
    ("metadata", str_dict (trigger_metadata t));
    ("rate_limit", optional_config VInt (rate_limit t));
    ("cooldown", optional_config VFloat (cooldown t)) ].

(** The trigger a configuration with nothing but a name gives. *)
Definition bare_trigger (trigger_name : string) : TriggerConfig :=
  {| name := trigger_name;
     conditions := [];
     actions := [];
     enabled := true;
     trigger_metadata := [];
     rate_limit := None;
     cooldown := None |}.

(** The event has the type ["alert.critical"] and a [severity] that does
    not compare with 8. *)
Definition unordered_severity (ev : EventPayload) : Prop :=
  event_type ev = "alert.critical" /\
  py_order OpGe (get_or_none "severity" (data ev)) (VInt 8) = None.

(** The event has the type ["data.file_uploaded"] and a [file_size] that
    does not compare with 1024. *)
Definition unordered_file_size (ev : EventPayload) : Prop :=
  event_type ev = "data.file_uploaded" /\
  py_order OpGt (get_or_none "file_size" (data ev)) (VInt 1024) = None.

(** ** The gate in its two round trips, and Redis failures *)

(** [_check_rate_limit] above is the gate when Redis answers and nothing
    else touches the counter between its two awaits. The source awaits
    twice: the [GET], then the pipeline of [INCR] and [EXPIRE]. The two
    steps are given here on their own, so that runs in which another fire
    comes in between, or in which a round trip raises, can be stated. *)
Inductive gate_decision : Type :=
  | Unlimited
  | Refuse
  | Count (key : string).

(** Up to the answer of [GET]: no limit to enforce, a counter at the
    limit, or a counter to increment. *)
Definition gate_get (h : TriggerHandler) (now : Z) (trigger : TriggerConfig)
  : gate_decision :=
  match rate_limit trigger, redis_client h with
  | Some limit, Some db =>
      if limit =? 0 then Unlimited
      else
        let key := rate_limit_key trigger in
        match Redis.get now key db with
        | Some current => if limit <=? current then Refuse else Count key
        | None => Count key
        end
  | _, _ => Unlimited
  end.

(** The pipeline: [INCR key] and [EXPIRE key 60]. *)
Definition gate_pipeline (h : TriggerHandler) (now : Z) (key : string)
  : TriggerHandler :=
  match redis_client h with
  | Some db => with_redis h (Redis.expire now key 60 (Redis.incr now key db))
  | None => h
  end.

(** How the round trips of one gate go: both answer; the [GET] raises; the
    [GET] answers and the pipeline raises, the server having run it or
    not. *)
Inductive redis_run : Type :=
  | Answers
  | GetRaises (e : exn)
  | PipelineRaises (e : exn) (applied : bool).

(** The gate with its failures. No round trip is made when there is no
    limit or no client. *)
Definition _check_rate_limit_with (run : redis_run) (h : TriggerHandler)
  (now : Z) (trigger : TriggerConfig) : res bool * TriggerHandler :=
  match gate_get h now trigger with
  | Unlimited => (Ret true, h)
  | Refuse =>
      match run with
      | GetRaises e => (Raise e, h)
      | _ => (Ret false, h)
      end
  | Count key =>
      match run with
      | Answers => (Ret true, gate_pipeline h now key)
      | GetRaises e => (Raise e, h)
      | PipelineRaises e applied =>
          (Raise e, if applied then gate_pipeline h now key else h)
      end
  end.

(** [_execute_trigger] with the failures of the gate: the exception of a
    round trip leaves the function, nothing after the gate being done. *)
Definition _execute_trigger_with (run : redis_run) (h : TriggerHandler)
  (now : Z) (trigger : TriggerConfig) (ev : EventPayload)
  (sinks : nat -> Z -> option exn)
  : res unit * TriggerHandler * list effect :=
  if negb (enabled trigger) then (Ret tt, h, [Log DEBUG "Trigger is disabled"])
  else
    match _check_rate_limit_with run h now trigger with
    | (Raise e, h1) => (Raise e, h1, [])
    | (Ret false, h1) => (Ret tt, h1, [Log WARNING "Rate limit exceeded"])
    | (Ret true, h1) =>
        let s0 := stats_of h1 (name trigger) in
        let s1 := {| executions := executions s0 + 1;
                     successes := successes s0;
                     failures := failures s0 |} in
        let tasks := run_actions trigger ev sinks in
        let results := map fst tasks in
        let successes' := count_successes results in
        let failures' := Z.of_nat (length results) - successes' in
        let s2 := {| executions := executions s1;
                     successes := successes s1 + successes';
                     failures := failures s1 + failures' |} in
        (Ret tt,
         with_stats h1 (<[name trigger := s2]> (trigger_stats h1)),
         [Log INFO "Executing trigger"] ++ concat (map snd tasks)
           ++ [Log INFO "Trigger completed"])
    end.

(** The second loop of [process_event] with the failures of the gates:
    [redis i] is how the round trips of the [i]-th matching trigger go. An
    exception ends the loop; the trigger it came from is the last one
    listed. *)
Fixpoint execute_matching_with (h : TriggerHandler) (w : world)
  (redis : nat -> redis_run) (i : nat) (ms : list TriggerConfig)
  (ev : EventPayload)
  : res unit * TriggerHandler * list (string * list effect) :=
  match ms with
  | [] => (Ret tt, h, [])
  | trigger :: rest =>
      match
        _execute_trigger_with (redis i) h (clock w i) trigger ev (sink w i)
      with
      | (Raise e, h1, effs) => (Raise e, h1, [(name trigger, effs)])
      | (Ret _, h1, effs) =>
          let '(r, h2, tr) := execute_matching_with h1 w redis (S i) rest ev in
          (r, h2, (name trigger, effs) :: tr)
      end
  end.

Definition process_event_with (h : TriggerHandler) (w : world)
  (redis : nat -> redis_run) (ev : EventPayload) (source : string)
  : res unit * TriggerHandler * list (string * list effect) :=
  match matching_triggers (triggers h) ev with
  | Raise e => (Raise e, h, [])
  | Ret ms => execute_matching_with h w redis 0 ms ev
  end.

Definition redis_down : nat -> redis_run :=
  fun _ => GetRaises (SinkError "redis connection lost").


(** * Properties *)

(** ** Dictionaries *)

Section DictFacts.
Context {V : Type}.
Implicit Types (d : list (string * V)) (k : string) (v : V).

Lemma get_set_same k v d : PyDict.get k (PyDict.set k v d) = Some v.
Proof.
  induction d as [|[k' v'] d IH]; simpl.
  - by rewrite String.eqb_refl.
  - destruct (String.eqb k k') eqn:E; simpl; rewrite E; [done | exact IH].
Qed.

Lemma get_set_other k k' v d :
  k <> k' -> PyDict.get k' (PyDict.set k v d) = PyDict.get k' d.
Proof.
  intros Hne. induction d as [|[k0 v0] d IH]; simpl.
  - destruct (String.eqb k' k) eqn:E; [|done].
    apply String.eqb_eq in E. congruence.
  - destruct (String.eqb k k0) eqn:E; simpl.
    + apply String.eqb_eq in E. subst k0.
      destruct (String.eqb k' k) eqn:E'; [|done].
      apply String.eqb_eq in E'. congruence.
    + by rewrite IH.
Qed.

Lemma keys_set k v d :
  PyDict.keys (PyDict.set k v d) =
  if PyDict.mem k d then PyDict.keys d else PyDict.keys d ++ [k].
Proof.
  unfold PyDict.mem, PyDict.keys.
  induction d as [|[k' v'] d IH]; simpl; [done|].
  destruct (String.eqb k k') eqn:E; simpl; [done|].
  rewrite IH. by destruct (PyDict.get k d).
Qed.

Lemma get_del_other k k' d :
  k <> k' -> PyDict.get k' (PyDict.del k d) = PyDict.get k' d.
Proof.
  intros Hne. induction d as [|[k0 v0] d IH]; simpl; [done|].
  destruct (String.eqb k k0) eqn:E; simpl.
  - apply String.eqb_eq in E. subst k0.
    destruct (String.eqb k' k) eqn:E'; [|done].
    apply String.eqb_eq in E'. congruence.
  - by rewrite IH.
Qed.

Lemma get_map {W : Type} (f : V -> W) k d :
  PyDict.get k (map (fun kv => (fst kv, f (snd kv))) d) = f <$> PyDict.get k d.
Proof.
  induction d as [|[k' v'] d IH]; simpl; [done|].
  by destruct (String.eqb k k').
Qed.

Lemma keys_map {W : Type} (f : V -> W) d :
  PyDict.keys (map (fun kv => (fst kv, f (snd kv))) d) = PyDict.keys d.
Proof.
  unfold PyDict.keys. induction d as [|[k' v'] d IH]; simpl; [done|].
  by rewrite IH.
Qed.

Lemma mem_map {W : Type} (f : V -> W) k d :
  PyDict.mem k (map (fun kv => (fst kv, f (snd kv))) d) = PyDict.mem k d.
Proof. unfold PyDict.mem. rewrite get_map. by destruct (PyDict.get k d). Qed.
End DictFacts.

(** ** Condition evaluator *)

Lemma py_eq_none (v : any) : py_eq VNone v = is_none v.
Proof. by destruct v. Qed.

Lemma py_order_none (op : ordop) (v : any) : py_order op VNone v = None.
Proof. by destruct v. Qed.

Lemma existsb_eq_none (l : list any) :
  existsb (py_eq VNone) l = existsb is_none l.
Proof.
  induction l as [|x l IH]; [done|].
  change (py_eq VNone x || existsb (py_eq VNone) l
          = is_none x || existsb is_none l).
  by rewrite py_eq_none, IH.
Qed.

(** A path outside the grammar extracts [None]. *)
Lemma extract_unknown_path (f : string) (ev : EventPayload) :
  String.eqb f "event_type" = false ->
  String.eqb f "source" = false ->
  String.prefix "data." f = false ->
  String.prefix "metadata." f = false ->
  _extract_value f ev = VNone.
Proof.
  intros H1 H2 H3 H4. unfold _extract_value. by rewrite H1, H2, H3, H4.
Qed.

(** A key that the event's data does not have extracts [None]. *)
Lemma extract_missing_data_key (key : string) (ev : EventPayload) :
  PyDict.get key (data ev) = None ->
  _extract_value (String.append "data." key) ev = VNone.
Proof.
  intros H. unfold _extract_value. simpl.
  change (String.append "" key) with key.
  unfold get_or_none. rewrite H. by destruct key.
Qed.

(** The four ordering operators raise on an absent field, whatever the
    literal. *)
Lemma ordering_on_absent_raises (c : Condition) (ev : EventPayload) :
  _extract_value (field c) ev = VNone ->
  operator c = GT \/ operator c = LT \/ operator c = GTE \/ operator c = LTE ->
  _evaluate_condition c ev = Raise TypeError.
Proof.
  intros Hx Hop. unfold _evaluate_condition, compare_op. rewrite Hx.
  destruct Hop as [-> | [-> | [-> | ->]]]; by rewrite py_order_none.
Qed.

(** C2, at the input where the code departs from it: the second condition
    of the default trigger [critical-alert], [data.severity gte 8], on an
    [alert.critical] event without [severity]. The extracted value is [None],
    the comparison raises [TypeError] instead of giving [False], and the
    exception leaves [process_event] before any trigger has run. *)
Theorem gte_on_absent_severity_raises :
  _extract_value "data.severity" alert_without_severity = VNone /\
  _evaluate_condition (mk_condition "data.severity" GTE (VInt 8))
    alert_without_severity = Raise TypeError /\
  _evaluate_conditions (conditions critical_alert) alert_without_severity
    = Raise TypeError /\
  process_event (initialize __init__ ∅) calm_world alert_without_severity
    "generic" = (Raise TypeError, initialize __init__ ∅, []).
Proof. repeat split; reflexivity. Qed.

(** C4 as stated fails: on an event without the field, [not_in] against a
    list of concrete values is true, [eq] against the literal [None] is true,
    and [in] against a list that holds [None] is true. *)
Lemma absent_field_not_always_false :
  _extract_value "data.region" alert_without_severity = VNone /\
  _evaluate_condition (mk_condition "data.region" NOT_IN (VList [VStr "eu"]))
    alert_without_severity = Ret true /\
  _evaluate_condition (mk_condition "data.region" EQ VNone)
    alert_without_severity = Ret true /\
  _evaluate_condition (mk_condition "data.region" IN (VList [VNone; VStr "eu"]))
    alert_without_severity = Ret true.
Proof. repeat split; reflexivity. Qed.

(** C4, amended: when the field extracts [None], [eq] is true exactly when
    the literal is [None], [ne] exactly when it is not, [contains] and
    [regex] are false, and against a list literal [in] is true exactly when
    the list holds [None] and [not_in] exactly when it does not. *)
Theorem absent_field_evaluation (c : Condition) (ev : EventPayload) :
  _extract_value (field c) ev = VNone ->
  (operator c = EQ -> _evaluate_condition c ev = Ret (is_none (value c))) /\
  (operator c = NE ->
     _evaluate_condition c ev = Ret (negb (is_none (value c)))) /\
  (operator c = CONTAINS \/ operator c = REGEX ->
     _evaluate_condition c ev = Ret false) /\
  (forall l, operator c = IN -> value c = VList l ->
     _evaluate_condition c ev = Ret (existsb is_none l)) /\
  (forall l, operator c = NOT_IN -> value c = VList l ->
     _evaluate_condition c ev = Ret (negb (existsb is_none l))).
Proof.
  intros Hx. unfold _evaluate_condition. rewrite Hx.
  repeat split.
  - intros ->. by rewrite py_eq_none.
  - intros ->. by rewrite py_eq_none.
  - by intros [-> | ->].
  - intros l -> ->. unfold py_in. by rewrite existsb_eq_none.
  - intros l -> ->. unfold py_not_in, py_in, bind. by rewrite existsb_eq_none.
Qed.

Lemma absent_field_evaluation_witness :
  _evaluate_condition (mk_condition "data.region" NE (VStr "eu"))
    alert_without_severity = Ret true /\
  _evaluate_condition (mk_condition "data.region" NOT_IN (VList [VStr "eu"]))
    alert_without_severity = Ret true.
Proof.
  split.
  - destruct (absent_field_evaluation
                (mk_condition "data.region" NE (VStr "eu"))
                alert_without_severity eq_refl) as (_ & Hne & _).
    exact (Hne eq_refl).
  - destruct (absent_field_evaluation
                (mk_condition "data.region" NOT_IN (VList [VStr "eu"]))
                alert_without_severity eq_refl) as (_ & _ & _ & _ & Hnot).
    exact (Hnot [VStr "eu"] eq_refl eq_refl).
Defined.

(** ** Action dispatcher *)

Lemma timeline_app (xs ys : list effect) :
  timeline (xs ++ ys) = timeline xs ++ timeline ys.
Proof.
  induction xs as [|[k t m|s|l w] xs IH]; simpl; [done| | |done];
    by rewrite IH.
Qed.

Lemma sleeps_app (xs ys : list effect) :
  sleeps (xs ++ ys) = sleeps xs ++ sleeps ys.
Proof.
  induction xs as [|[k t m|s|l w] xs IH]; simpl; [done|done| |done].
  by rewrite IH.
Qed.

Lemma sends_app (xs ys : list effect) : sends (xs ++ ys) = sends xs ++ sends ys.
Proof. unfold sends. apply List.filter_app. Qed.

Lemma sleeps_timeline (effs : list effect) :
  sleeps effs = waits (timeline effs).
Proof.
  induction effs as [|[k t m|s|l w] effs IH]; simpl; [done|done| |done].
  by rewrite IH.
Qed.

Lemma sends_timeline (effs : list effect) :
  length (sends effs) = tries (timeline effs).
Proof.
  unfold tries, sends.
  induction effs as [|[k t m|s|l w] effs IH]; simpl; [done| |done|done].
  by rewrite IH.
Qed.

Lemma waits_backoff (j : nat) : forall attempt,
  waits (backoff_from attempt j) =
  map (fun i => 2 ^ (attempt + Z.of_nat i)) (seq 0 j).
Proof.
  induction j as [|j IH]; intros attempt; [done|].
  cbn [backoff_from waits flat_map app seq map].
  fold (waits (backoff_from (attempt + 1) j)).
  rewrite IH, <- seq_shift, map_map. f_equal.
  - f_equal. lia.
  - apply map_ext. intros i. f_equal. lia.
Qed.

Lemma tries_backoff (j : nat) : forall attempt,
  tries (backoff_from attempt j) = S j.
Proof.
  induction j as [|j IH]; intros attempt; [done|].
  unfold tries in *. simpl. by rewrite IH.
Qed.

(** What one call of a sink leaves behind. *)
Lemma dispatch_sendable (a : Action) (ev : EventPayload) (answer : option exn) :
  sendable a = true ->
  exists effs,
    dispatch a ev answer
      = Some (match answer with None => Ret tt | Some e => Raise e end, effs) /\
    timeline effs = [Attempt] /\
    sends effs = [Send (type a) (target a) (merged_message a ev)].
Proof.
  unfold sendable, dispatch. intros Hs.
  destruct (type a) eqn:Ht; try discriminate; destruct answer as [e|];
    eexists; (split; [reflexivity | split; reflexivity]).
Qed.

Lemma dispatch_unknown (a : Action) (ev : EventPayload) (answer : option exn) :
  unknown_kind a = true -> dispatch a ev answer = None.
Proof.
  unfold unknown_kind, dispatch. by destruct (type a).
Qed.

(** The loop, started at any attempt number: failures up to [j] excluded,
    then either a success at [j], or the failure of the last attempt. *)
Lemma attempts_run (a : Action) (ev : EventPayload) (sink : Z -> option exn) :
  sendable a = true ->
  forall (n : nat) (attempt j : Z),
    0 <= attempt <= j -> j <= retries a ->
    Z.of_nat n + attempt = retries a + 1 ->
    (forall i, attempt <= i < j -> sink i <> None) ->
    (sink j = None ->
       fst (attempts n attempt a ev sink) = Ret tt /\
       timeline (snd (attempts n attempt a ev sink))
         = backoff_from attempt (Z.to_nat (j - attempt))) /\
    (forall e, j = retries a -> sink j = Some e ->
       fst (attempts n attempt a ev sink) = Raise e /\
       timeline (snd (attempts n attempt a ev sink))
         = backoff_from attempt (Z.to_nat (j - attempt))).
Proof.
  intros Hs. induction n as [|n IH]; intros attempt j Hat Hj Hn Hfail; [lia|].
  destruct (Z.eq_dec attempt j) as [-> | Hlt].
  - replace (Z.to_nat (j - j)) with O by lia.
    destruct (dispatch_sendable a ev (sink j) Hs) as (effs & Hd & Htl & _).
    split.
    + intros Hok. cbn [attempts]. rewrite Hd, Hok. simpl.
      by rewrite timeline_app, Htl.
    + intros e -> He. cbn [attempts]. rewrite Hd, He, Z.eqb_refl. simpl.
      by rewrite timeline_app, Htl.
  - assert (Hstep : Z.to_nat (j - attempt) = S (Z.to_nat (j - (attempt + 1))))
      by lia.
    destruct (dispatch_sendable a ev (sink attempt) Hs) as (effs & Hd & Htl & _).
    destruct (sink attempt) as [e0|] eqn:H0;
      [| exfalso; apply (Hfail attempt); [lia | done]].
    assert (Hne : (attempt =? retries a) = false) by (apply Z.eqb_neq; lia).
    specialize (IH (attempt + 1) j).
    destruct IH as [IHok IHraise]; [lia | lia | lia | |].
    { intros i Hi. apply Hfail. lia. }
    cbn [attempts]. rewrite H0, Hd, Hne.
    destruct (attempts n (attempt + 1) a ev sink) as [r rest] eqn:Hrec.
    simpl in IHok, IHraise. rewrite Hstep. cbn [backoff_from fst snd].
    rewrite timeline_app, Htl. cbn [timeline app].
    split.
    + intros Hok. destruct (IHok Hok) as [-> ->]. done.
    + intros e Hje He. destruct (IHraise e Hje He) as [-> ->]. done.
Qed.

Lemma timeline_backoff_facts (effs : list effect) (k : nat) :
  timeline effs = backoff_from 0 k ->
  count_attempts effs = Z.of_nat k + 1 /\
  sleeps effs = map (fun i => 2 ^ Z.of_nat i) (seq 0 k).
Proof.
  intros Htl. unfold count_attempts.
  rewrite sends_timeline, sleeps_timeline, Htl, tries_backoff, waits_backoff.
  split; [lia|]. apply map_ext. intros i. f_equal.
Qed.

(** C5: an action of a kind that has a sink, with [retries = N >= 0].
    If every attempt fails, the run makes [N + 1] attempts, sleeps
    [2 ^ 0, ..., 2 ^ (N - 1)] between them, one delay after each failed
    attempt but the last, and raises the exception of the last attempt.
    If attempt [j] is the first to succeed, the run returns normally after
    [j + 1] attempts and the delays [2 ^ 0, ..., 2 ^ (j - 1)]: nothing is
    tried after a success. *)
Theorem retry_envelope (a : Action) (ev : EventPayload) (sink : Z -> option exn) :
  sendable a = true ->
  0 <= retries a ->
  ((forall i, 0 <= i <= retries a -> sink i <> None) ->
   exists e,
     sink (retries a) = Some e /\
     fst (_execute_action a ev sink) = Raise e /\
     count_attempts (snd (_execute_action a ev sink)) = retries a + 1 /\
     sleeps (snd (_execute_action a ev sink))
       = map (fun i => 2 ^ Z.of_nat i) (seq 0 (Z.to_nat (retries a))) /\
     timeline (snd (_execute_action a ev sink))
       = backoff_from 0 (Z.to_nat (retries a))) /\
  (forall j, 0 <= j <= retries a ->
     (forall i, 0 <= i < j -> sink i <> None) ->
     sink j = None ->
     fst (_execute_action a ev sink) = Ret tt /\
     count_attempts (snd (_execute_action a ev sink)) = j + 1 /\
     sleeps (snd (_execute_action a ev sink))
       = map (fun i => 2 ^ Z.of_nat i) (seq 0 (Z.to_nat j)) /\
     timeline (snd (_execute_action a ev sink)) = backoff_from 0 (Z.to_nat j)).
Proof.
  intros Hs HN. unfold _execute_action. split.
  - intros Hfail.
    destruct (sink (retries a)) as [e|] eqn:He;
      [| exfalso; apply (Hfail (retries a)); [lia | done]].
    exists e. split; [done|].
    destruct (attempts_run a ev sink Hs (Z.to_nat (retries a + 1)) 0 (retries a))
      as [_ Hraise]; [lia | lia | lia | |].
    { intros i Hi. apply Hfail. lia. }
    destruct (Hraise e eq_refl He) as [Hr Htl].
    rewrite Z.sub_0_r in Htl.
    destruct (timeline_backoff_facts _ _ Htl) as [Hc Hsl].
    split; [exact Hr|]. split; [lia|]. split; [exact Hsl | exact Htl].
  - intros j Hj Hfail Hok.
    destruct (attempts_run a ev sink Hs (Z.to_nat (retries a + 1)) 0 j)
      as [Hret _]; [lia | lia | lia | |].
    { intros i Hi. apply Hfail. lia. }
    destruct (Hret Hok) as [Hr Htl].
    rewrite Z.sub_0_r in Htl.
    destruct (timeline_backoff_facts _ _ Htl) as [Hc Hsl].
    split; [exact Hr|]. split; [lia|]. split; [exact Hsl | exact Htl].
Qed.

Lemma retry_envelope_witness :
  (fst (_execute_action page_action alert_severity_9 sink_down)
     = Raise (SinkError "unreachable") /\
   count_attempts (snd (_execute_action page_action alert_severity_9 sink_down))
     = 4 /\
   sleeps (snd (_execute_action page_action alert_severity_9 sink_down))
     = [1; 2; 4]) /\
  (fst (_execute_action page_action alert_severity_9 sink_up_at_2) = Ret tt /\
   count_attempts (snd (_execute_action page_action alert_severity_9 sink_up_at_2))
     = 3 /\
   sleeps (snd (_execute_action page_action alert_severity_9 sink_up_at_2))
     = [1; 2]).
Proof.
  split.
  - destruct (retry_envelope page_action alert_severity_9 sink_down eq_refl)
      as [Hall _]; [simpl; lia|].
    destruct Hall as (e & He & Hr & Hc & Hs & _); [discriminate|].
    injection He as <-. split; [exact Hr | split; [exact Hc | exact Hs]].
  - destruct (retry_envelope page_action alert_severity_9 sink_up_at_2 eq_refl)
      as [_ Hone]; [simpl; lia|].
    destruct (Hone 2) as (Hr & Hc & Hs & _); [simpl; lia | | reflexivity |].
    { intros i Hi. unfold sink_up_at_2.
      destruct (i =? 2) eqn:E; [apply Z.eqb_eq in E; lia | discriminate]. }
    split; [exact Hr | split; [exact Hc | exact Hs]].
Defined.

Lemma dispatch_sends (a : Action) (ev : EventPayload) (answer : option exn)
  (r : res unit) (effs : list effect) (kind : ActionType) (to : string)
  (msg : list (string * obj)) :
  dispatch a ev answer = Some (r, effs) ->
  In (Send kind to msg) effs ->
  kind = type a /\ to = target a /\ msg = merged_message a ev.
Proof.
  unfold dispatch, _execute_http_action, _execute_kafka_action,
    _execute_redis_action, _execute_grpc_action.
  intros Hd Hin.
  destruct (type a); try discriminate; destruct answer as [e|];
    injection Hd as <- <-; simpl in Hin;
    repeat (destruct Hin as [Hin | Hin]; [try discriminate|]);
    try contradiction; by injection Hin as <- <- <-.
Qed.

Lemma attempts_sends (a : Action) (ev : EventPayload) (sink : Z -> option exn)
  (kind : ActionType) (to : string) (msg : list (string * obj)) :
  forall (n : nat) (attempt : Z),
    In (Send kind to msg) (snd (attempts n attempt a ev sink)) ->
    kind = type a /\ to = target a /\ msg = merged_message a ev.
Proof.
  induction n as [|n IH]; intros attempt; cbn [attempts]; [intros []|].
  destruct (dispatch a ev (sink attempt)) as [[[u|e] effs]|] eqn:Hd.
  - cbn [snd]. rewrite in_app_iff. intros [Hin | [Hin | []]]; [|discriminate].
    exact (dispatch_sends _ _ _ _ _ _ _ _ Hd Hin).
  - destruct (attempt =? retries a).
    + cbn [snd]. rewrite in_app_iff. intros [Hin | [Hin | []]]; [|discriminate].
      exact (dispatch_sends _ _ _ _ _ _ _ _ Hd Hin).
    + destruct (attempts n (attempt + 1) a ev sink) as [r rest] eqn:Hrec.
      cbn [snd]. rewrite in_app_iff. cbn [app In].
      intros [Hin | [Hin | [Hin | Hin]]]; try discriminate.
      * exact (dispatch_sends _ _ _ _ _ _ _ _ Hd Hin).
      * apply (IH (attempt + 1)). by rewrite Hrec.
  - cbn [snd In]. intros [Hin | []]. discriminate.
Qed.

Lemma metadata_values_inj (m m' : list (string * string)) :
  map (fun kv => (fst kv, VStr (snd kv))) m
    = map (fun kv => (fst kv, VStr (snd kv))) m' ->
  m = m'.
Proof.
  revert m'. induction m as [|[k v] m IH]; intros [|[k' v'] m'] H;
    try discriminate; [done|].
  simpl in H. injection H as -> -> H. f_equal. by apply IH.
Qed.

(** The dictionary of an event determines the event. *)
Lemma dict_of_event_inj (ev ev' : EventPayload) :
  dict_of_event ev = dict_of_event ev' -> ev = ev'.
Proof.
  destruct ev, ev'. unfold dict_of_event. cbn.
  intros H. injection H as -> -> -> -> -> H.
  by rewrite (metadata_values_inj _ _ H).
Qed.

(** Every attempt of a kind with a sink begins with the sink call on the
    message. *)
Lemma attempts_first_send (a : Action) (ev : EventPayload)
  (sink : Z -> option exn) (n : nat) (attempt : Z) :
  sendable a = true ->
  exists rest,
    sends (snd (attempts (S n) attempt a ev sink))
      = Send (type a) (target a) (merged_message a ev) :: rest.
Proof.
  intros Hs.
  destruct (dispatch_sendable a ev (sink attempt) Hs) as (effs & Hd & _ & Hsend).
  cbn [attempts]. rewrite Hd.
  destruct (sink attempt) as [e|].
  - destruct (attempt =? retries a).
    + cbn [snd]. rewrite sends_app, Hsend. by eexists.
    + destruct (attempts n (attempt + 1) a ev sink) as [r rest].
      cbn [snd]. rewrite sends_app, Hsend. by eexists.
  - cbn [snd]. rewrite sends_app, Hsend. by eexists.
Qed.

Lemma sends_are_sent (effs : list effect) (x : effect) :
  In x (sends effs) -> In x effs /\ exists kind to msg, x = Send kind to msg.
Proof.
  unfold sends. rewrite List.filter_In. intros [Hin Hs].
  split; [exact Hin|]. destruct x; try discriminate. by eexists _, _, _.
Qed.

Lemma all_equal_repeat {A} (x : A) (l : list A) :
  (forall y, In y l -> y = x) -> l = repeat x (length l).
Proof.
  induction l as [|y l IH]; intros Hall; [done|].
  cbn. rewrite (Hall y (or_introl eq_refl)). f_equal.
  apply IH. intros z Hz. apply Hall. by right.
Qed.

(** C9: the message is the action's payload with ["event"] bound to the
    dictionary of the whole event. Under ["event"] it holds the event,
    whatever the payload had there; every other key has the payload's value;
    the keys are the payload's in their order, with ["event"] added last if
    it was not among them. Each of the three sink functions builds exactly
    this message and makes its one sink call on it, for the action's target,
    whatever comes of the call; and a run of an action of such a kind, with
    [retries] not negative, makes the call at least once, every attempt
    being a call on this message for the action's target and nothing
    else. *)
Theorem merged_message_spec (a : Action) (ev : EventPayload) :
  PyDict.get "event" (merged_message a ev) = Some (dict_of_event ev) /\
  (forall ev', dict_of_event ev = dict_of_event ev' -> ev = ev') /\
  (forall k, k <> "event" ->
     PyDict.get k (merged_message a ev) = OAny <$> PyDict.get k (payload a)) /\
  PyDict.keys (merged_message a ev)
    = (if PyDict.mem "event" (payload a)
       then PyDict.keys (payload a)
       else PyDict.keys (payload a) ++ ["event"]) /\
  (forall sink kind to msg,
     In (Send kind to msg) (snd (_execute_action a ev sink)) ->
     kind = type a /\ to = target a /\ msg = merged_message a ev) /\
  (forall answer,
     sends (snd (_execute_http_action a ev answer))
       = [Send HTTP (target a) (merged_message a ev)] /\
     sends (snd (_execute_kafka_action a ev answer))
       = [Send KAFKA (target a) (merged_message a ev)] /\
     sends (snd (_execute_redis_action a ev answer))
       = [Send REDIS (target a) (merged_message a ev)]) /\
  (forall sink,
     sendable a = true -> 0 <= retries a ->
     exists n,
       sends (snd (_execute_action a ev sink))
         = repeat (Send (type a) (target a) (merged_message a ev)) (S n)).
Proof.
  repeat apply conj.
  - apply get_set_same.
  - apply dict_of_event_inj.
  - intros k Hk. unfold merged_message.
    rewrite get_set_other by congruence. apply get_map.
  - unfold merged_message. by rewrite keys_set, mem_map, keys_map.
  - intros sink kind to msg Hin.
    exact (attempts_sends _ _ _ _ _ _ _ _ Hin).
  - intros answer. by destruct answer.
  - intros sink Hs Hr. unfold _execute_action.
    replace (Z.to_nat (retries a + 1)) with (S (Z.to_nat (retries a))) by lia.
    destruct (attempts_first_send a ev sink (Z.to_nat (retries a)) 0 Hs)
      as [rest Hfirst].
    exists (length rest).
    rewrite (all_equal_repeat (Send (type a) (target a) (merged_message a ev))
               (sends (snd (attempts (S (Z.to_nat (retries a))) 0 a ev sink)))).
    + by rewrite Hfirst.
    + intros y Hy. apply sends_are_sent in Hy as [Hin (kind & to & msg & ->)].
      by destruct (attempts_sends _ _ _ _ _ _ _ _ Hin) as (-> & -> & ->).
Qed.

Lemma merged_message_spec_witness :
  PyDict.get "n" (merged_message shadowing_action alert_severity_9)
    = Some (OAny (VInt 1)) /\
  PyDict.get "event" (merged_message shadowing_action alert_severity_9)
    = Some (dict_of_event alert_severity_9) /\
  PyDict.keys (merged_message shadowing_action alert_severity_9)
    = ["action"; "event"; "n"] /\
  sends (snd (_execute_action shadowing_action alert_severity_9 sink_up_at_2))
    = repeat (Send KAFKA "user-events"
                (merged_message shadowing_action alert_severity_9)) 3.
Proof.
  destruct (merged_message_spec shadowing_action alert_severity_9)
    as (Hev & _ & Hother & Hkeys & _ & _ & Hrun).
  split; [| split; [exact Hev | split; [exact Hkeys|]]].
  - apply (Hother "n"). discriminate.
  - destruct (Hrun sink_up_at_2 eq_refl) as [n Hn]; [cbn; lia|].
    rewrite Hn. f_equal.
    apply (f_equal (@length effect)) in Hn. rewrite repeat_length in Hn.
    vm_compute in Hn. by injection Hn as <-.
Defined.

(** ** Rate limiter *)

Section Gate.
Variables (h : TriggerHandler) (now : Z) (t : TriggerConfig).

(** The gate touches the Redis keyspace only. *)
Lemma gate_keeps_stats :
  trigger_stats (snd (_check_rate_limit h now t)) = trigger_stats h /\
  triggers (snd (_check_rate_limit h now t)) = triggers h.
Proof.
  unfold _check_rate_limit.
  destruct (rate_limit t) as [limit|], (redis_client h) as [db|]; try done.
  destruct (limit =? 0); [done|].
  destruct (Redis.get now (rate_limit_key t) db) as [current|]; [|done].
  by destruct (limit <=? current).
Qed.

(** A refusal changes nothing at all. *)
Lemma gate_refusal_keeps_handler :
  fst (_check_rate_limit h now t) = false -> snd (_check_rate_limit h now t) = h.
Proof.
  unfold _check_rate_limit.
  destruct (rate_limit t) as [limit|], (redis_client h) as [db|]; try done.
  destruct (limit =? 0); [done|].
  destruct (Redis.get now (rate_limit_key t) db) as [current|]; [|done].
  by destruct (limit <=? current).
Qed.

Lemma gate_without_redis :
  redis_client h = None -> _check_rate_limit h now t = (true, h).
Proof.
  intros Hr. unfold _check_rate_limit. rewrite Hr. by destruct (rate_limit t).
Qed.
End Gate.

Section Counter.
Variables (now : Z) (key : string) (db : gmap string Redis.entry).

Lemma incr_expire_fresh :
  Redis.find now key db = None ->
  Redis.expire now key 60 (Redis.incr now key db) !! key
    = Some {| Redis.stored := 1; Redis.expires_at := Some (now + 60) |}.
Proof.
  intros Hf. unfold Redis.incr. rewrite Hf.
  unfold Redis.expire, Redis.find. rewrite lookup_insert_eq. cbn.
  by rewrite lookup_insert_eq.
Qed.

Lemma incr_expire_live (e : Redis.entry) :
  Redis.find now key db = Some e ->
  Redis.expire now key 60 (Redis.incr now key db) !! key
    = Some {| Redis.stored := Redis.stored e + 1;
              Redis.expires_at := Some (now + 60) |}.
Proof.
  intros Hf. unfold Redis.incr. rewrite Hf.
  assert (Hlive : Redis.live now e = true).
  { unfold Redis.find in Hf. destruct (db !! key) as [e'|]; [|done].
    destruct (Redis.live now e') eqn:E; [|done]. by injection Hf as <-. }
  unfold Redis.expire, Redis.find. rewrite lookup_insert_eq.
  unfold Redis.live in *. cbn. rewrite Hlive. cbn.
  by rewrite lookup_insert_eq.
Qed.

Lemma find_live (c x : Z) :
  db !! key = Some {| Redis.stored := c; Redis.expires_at := Some x |} ->
  now <= x ->
  Redis.find now key db
    = Some {| Redis.stored := c; Redis.expires_at := Some x |}.
Proof.
  intros Hl Hx. unfold Redis.find, Redis.live. rewrite Hl. cbn.
  by rewrite (proj2 (Z.leb_le now x) Hx).
Qed.

End Counter.

Section LimitedGate.
Variables (h : TriggerHandler) (db : gmap string Redis.entry)
  (t : TriggerConfig) (limit : Z).
Hypothesis Hredis : redis_client h = Some db.
Hypothesis Hlimit : rate_limit t = Some limit.
Hypothesis Hpos : 1 <= limit.

(** No live counter: the fire passes and the counter starts at 1. *)
Lemma gate_fresh (now : Z) :
  Redis.find now (rate_limit_key t) db = None ->
  exists db',
    _check_rate_limit h now t = (true, with_redis h db') /\
    db' !! rate_limit_key t
      = Some {| Redis.stored := 1; Redis.expires_at := Some (now + 60) |}.
Proof.
  intros Hf. unfold _check_rate_limit. rewrite Hlimit, Hredis.
  rewrite (proj2 (Z.eqb_neq limit 0)) by lia.
  unfold Redis.get. rewrite Hf. cbn.
  eexists. split; [reflexivity|]. by apply incr_expire_fresh.
Qed.

(** A live counter below the limit: the fire passes, the counter goes up
    by one and lives 60 seconds from now. *)
Lemma gate_below (now c x : Z) :
  db !! rate_limit_key t
    = Some {| Redis.stored := c; Redis.expires_at := Some x |} ->
  now <= x -> c < limit ->
  exists db',
    _check_rate_limit h now t = (true, with_redis h db') /\
    db' !! rate_limit_key t
      = Some {| Redis.stored := c + 1; Redis.expires_at := Some (now + 60) |}.
Proof.
  intros Hl Hx Hc. pose proof (find_live now _ db c x Hl Hx) as Hf.
  unfold _check_rate_limit. rewrite Hlimit, Hredis.
  rewrite (proj2 (Z.eqb_neq limit 0)) by lia.
  unfold Redis.get. rewrite Hf. cbn.
  rewrite (proj2 (Z.leb_gt limit c)) by lia.
  eexists. split; [reflexivity|].
  by rewrite (incr_expire_live now _ db _ Hf).
Qed.

(** A live counter at the limit: the fire is refused. *)
Lemma gate_at_limit (now c x : Z) :
  db !! rate_limit_key t
    = Some {| Redis.stored := c; Redis.expires_at := Some x |} ->
  now <= x -> limit <= c ->
  _check_rate_limit h now t = (false, h).
Proof.
  intros Hl Hx Hc. pose proof (find_live now _ db c x Hl Hx) as Hf.
  unfold _check_rate_limit. rewrite Hlimit, Hredis.
  rewrite (proj2 (Z.eqb_neq limit 0)) by lia.
  unfold Redis.get. rewrite Hf. cbn.
  by rewrite (proj2 (Z.leb_le limit c)) by lia.
Qed.
End LimitedGate.

(** [_check_rate_limit] is the two round trips with nothing in between. *)
Lemma check_rate_limit_in_steps (h : TriggerHandler) (now : Z)
  (t : TriggerConfig) :
  _check_rate_limit h now t
    = match gate_get h now t with
      | Unlimited => (true, h)
      | Refuse => (false, h)
      | Count key => (true, gate_pipeline h now key)
      end.
Proof.
  unfold _check_rate_limit, gate_get, gate_pipeline.
  destruct (rate_limit t) as [limit|], (redis_client h) as [db|] eqn:Hr;
    try done.
  destruct (limit =? 0); [done|].
  destruct (Redis.get now (rate_limit_key t) db) as [current|].
  - by destruct (limit <=? current).
  - done.
Qed.

(** When Redis answers, the gate with failures is the one without. *)
Lemma check_with_answers (h : TriggerHandler) (now : Z) (t : TriggerConfig) :
  _check_rate_limit_with Answers h now t
    = (Ret (fst (_check_rate_limit h now t)), snd (_check_rate_limit h now t)).
Proof.
  unfold _check_rate_limit_with. rewrite check_rate_limit_in_steps.
  by destruct (gate_get h now t).
Qed.

(** ** Trigger orchestrator *)

Section Fire.
Variables (h : TriggerHandler) (now : Z) (t : TriggerConfig)
  (ev : EventPayload) (sinks : nat -> Z -> option exn).

Lemma fire_disabled :
  enabled t = false ->
  _execute_trigger h now t ev sinks = (h, [Log DEBUG "Trigger is disabled"]).
Proof. intros He. unfold _execute_trigger. by rewrite He. Qed.

Lemma fire_refused :
  enabled t = true ->
  fst (_check_rate_limit h now t) = false ->
  _execute_trigger h now t ev sinks = (h, [Log WARNING "Rate limit exceeded"]).
Proof.
  intros He Hg. unfold _execute_trigger. rewrite He.
  pose proof (gate_refusal_keeps_handler h now t Hg) as Hh.
  destruct (_check_rate_limit h now t) as [ok h1]. cbn in *. by subst.
Qed.

Lemma fire_accepted :
  enabled t = true ->
  fst (_check_rate_limit h now t) = true ->
  _execute_trigger h now t ev sinks
    = (with_stats (snd (_check_rate_limit h now t))
         (<[name t :=
              bump (stats_of h (name t))
                (count_successes (outcomes t ev sinks))
                (Z.of_nat (length (outcomes t ev sinks))
                 - count_successes (outcomes t ev sinks))]>
            (trigger_stats h)),
       [Log INFO "Executing trigger"]
         ++ concat (map snd (run_actions t ev sinks))
         ++ [Log INFO "Trigger completed"]).
Proof.
  intros He Hg. unfold _execute_trigger. rewrite He.
  destruct (gate_keeps_stats h now t) as [Hs _].
  destruct (_check_rate_limit h now t) as [ok h1]. cbn in *. subst ok. cbn.
  unfold stats_of, bump, outcomes. by rewrite Hs.
Qed.

Lemma fire_accepted_stats :
  enabled t = true ->
  fst (_check_rate_limit h now t) = true ->
  stats_of (fst (_execute_trigger h now t ev sinks)) (name t)
    = bump (stats_of h (name t))
        (count_successes (outcomes t ev sinks))
        (Z.of_nat (length (outcomes t ev sinks))
         - count_successes (outcomes t ev sinks)) /\
  redis_client (fst (_execute_trigger h now t ev sinks))
    = redis_client (snd (_check_rate_limit h now t)).
Proof.
  intros He Hg. rewrite (fire_accepted He Hg). cbn.
  unfold stats_of. cbn. by rewrite lookup_insert_eq.
Qed.

(** The statistics of the other triggers stay as they are. *)
Lemma fire_other_stats (n : string) :
  n <> name t ->
  trigger_stats (fst (_execute_trigger h now t ev sinks)) !! n
    = trigger_stats h !! n.
Proof.
  intros Hn. destruct (enabled t) eqn:He; [|by rewrite fire_disabled].
  destruct (fst (_check_rate_limit h now t)) eqn:Hg;
    [|by rewrite fire_refused].
  rewrite (fire_accepted He Hg). cbn. by rewrite lookup_insert_ne.
Qed.
End Fire.

Lemma count_successes_bounds {A} (rs : list (res A)) :
  0 <= count_successes rs <= Z.of_nat (length rs).
Proof.
  unfold count_successes.
  pose proof (List.filter_length_le (fun r => negb (is_exception r)) rs). lia.
Qed.

Lemma count_successes_all {A} (rs : list (res A)) :
  Forall (fun r => is_exception r = false) rs ->
  count_successes rs = Z.of_nat (length rs).
Proof.
  unfold count_successes. induction 1 as [|r rs Hr _ IH]; [done|].
  cbn. rewrite Hr. cbn. lia.
Qed.

Lemma outcomes_length (t : TriggerConfig) (ev : EventPayload)
  (sinks : nat -> Z -> option exn) :
  length (outcomes t ev sinks) = length (actions t).
Proof. unfold outcomes, run_actions. by rewrite length_map, length_imap. Qed.

Lemma outcomes_lookup (t : TriggerConfig) (ev : EventPayload)
  (sinks : nat -> Z -> option exn) (i : nat) (a : Action) :
  actions t !! i = Some a ->
  outcomes t ev sinks !! i = Some (fst (_execute_action a ev (sinks i))) /\
  run_actions t ev sinks !! i = Some (_execute_action a ev (sinks i)).
Proof.
  intros Ha. unfold outcomes, run_actions.
  by rewrite list_lookup_fmap, list_lookup_imap, Ha.
Qed.






(** ** Unknown action kinds *)

Lemma unknown_kind_run (a : Action) (ev : EventPayload) (sink : Z -> option exn) :
  unknown_kind a = true ->
  fst (_execute_action a ev sink) = Ret tt /\
  timeline (snd (_execute_action a ev sink)) = [].
Proof.
  intros Hu. unfold _execute_action.
  destruct (Z.to_nat (retries a + 1)) as [|n]; [done|].
  cbn [attempts]. by rewrite (dispatch_unknown a ev _ Hu).
Qed.

(** C3 as stated fails: the run of an [email] action does not raise, and
    the fire counts it in [successes], leaving [failures] at zero. *)
Lemma unknown_kind_not_counted_as_failure :
  is_exception (fst (_execute_action mail_action alert_severity_9 sink_down))
    = false /\
  stats_of (fst (_execute_trigger __init__ 0 mail_trigger alert_severity_9
                   (fun _ => sink_down))) "mail-ops"
    = {| executions := 1; successes := 1; failures := 0 |}.
Proof. split; reflexivity. Qed.

(** C3, amended: the run of an action of kind [email] or [webhook] returns
    at once and normally: no sink is called and nothing is retried or slept;
    its outcome in the result list is not an exception, so a fire of a
    trigger with that single action adds one to [successes] and nothing to
    [failures]. *)
Theorem unknown_kind_returns_normally (a : Action) (ev : EventPayload)
  (sink : Z -> option exn) :
  unknown_kind a = true ->
  fst (_execute_action a ev sink) = Ret tt /\
  timeline (snd (_execute_action a ev sink)) = [] /\
  count_attempts (snd (_execute_action a ev sink)) = 0 /\
  sleeps (snd (_execute_action a ev sink)) = [] /\
  (forall t sinks i, actions t !! i = Some a ->
     outcomes t ev sinks !! i = Some (Ret tt)) /\
  (forall h now t sinks,
     enabled t = true -> fst (_check_rate_limit h now t) = true ->
     actions t = [a] ->
     stats_of (fst (_execute_trigger h now t ev sinks)) (name t)
       = bump (stats_of h (name t)) 1 0).
Proof.
  intros Hu. destruct (unknown_kind_run a ev sink Hu) as [Hr Htl].
  split; [exact Hr|]. split; [exact Htl|].
  split; [unfold count_attempts; by rewrite sends_timeline, Htl|].
  split; [by rewrite sleeps_timeline, Htl|]. split.
  - intros t sinks i Ha.
    destruct (outcomes_lookup t ev sinks i a Ha) as [-> _].
    by rewrite (proj1 (unknown_kind_run a ev (sinks i) Hu)).
  - intros h now t sinks He Hg Ha.
    destruct (fire_accepted_stats h now t ev sinks He Hg) as [-> _].
    unfold outcomes, run_actions. rewrite Ha. cbn.
    by rewrite (proj1 (unknown_kind_run a ev (sinks 0%nat) Hu)).
Qed.

Lemma unknown_kind_returns_normally_witness :
  fst (_execute_action mail_action alert_severity_9 sink_down) = Ret tt /\
  stats_of (fst (_execute_trigger __init__ 0 mail_trigger alert_severity_9
                   (fun _ => sink_down))) "mail-ops"
    = bump (stats_of __init__ "mail-ops") 1 0.
Proof.
  destruct (unknown_kind_returns_normally mail_action alert_severity_9
              sink_down eq_refl) as (Hr & _ & _ & _ & _ & Hst).
  split; [exact Hr|].
  exact (Hst __init__ 0 mail_trigger (fun _ => sink_down)
           eq_refl eq_refl eq_refl).
Defined.

(** ** Fires without a Redis client *)

Lemma fire_all_without_redis (t : TriggerConfig) (ev : EventPayload) :
  enabled t = true ->
  forall (fires : list (Z * (nat -> Z -> option exn))) (h : TriggerHandler),
    redis_client h = None ->
    redis_client (fire_all h t ev fires) = None /\
    executions (stats_of (fire_all h t ev fires) (name t))
      = executions (stats_of h (name t)) + Z.of_nat (length fires).
Proof.
  intros He. induction fires as [|[now sinks] fires IH]; intros h Hr.
  - cbn. split; [done | lia].
  - assert (Hg : fst (_check_rate_limit h now t) = true)
      by (by rewrite gate_without_redis).
    destruct (fire_accepted_stats h now t ev sinks He Hg) as [Hst Hrc].
    rewrite gate_without_redis in Hrc by done. cbn [snd] in Hrc.
    destruct (IH (fst (_execute_trigger h now t ev sinks))) as [IH1 IH2];
      [congruence|].
    cbn [fire_all length]. split; [exact IH1|].
    rewrite IH2, Hst. cbn. lia.
Qed.

(** C10: a handler whose [redis_client] is [None] lets every trigger
    through the gate and the gate leaves it as it was, whatever [rate_limit]
    says; so each fire of an enabled trigger is executed ([executions] goes
    up by one and the actions run), the client is still [None] afterwards,
    and any number of fires at any instants are all executed. *)
Theorem rate_limit_unenforced_without_redis (h : TriggerHandler) (now : Z)
  (t : TriggerConfig) :
  redis_client h = None ->
  _check_rate_limit h now t = (true, h) /\
  (forall ev sinks, enabled t = true ->
     executions (stats_of (fst (_execute_trigger h now t ev sinks)) (name t))
       = executions (stats_of h (name t)) + 1 /\
     snd (_execute_trigger h now t ev sinks)
       = [Log INFO "Executing trigger"]
           ++ concat (map snd (run_actions t ev sinks))
           ++ [Log INFO "Trigger completed"] /\
     redis_client (fst (_execute_trigger h now t ev sinks)) = None) /\
  (forall ev fires, enabled t = true ->
     executions (stats_of (fire_all h t ev fires) (name t))
       = executions (stats_of h (name t)) + Z.of_nat (length fires)).
Proof.
  intros Hr. split; [by apply gate_without_redis|]. split.
  - intros ev sinks He.
    assert (Hg : fst (_check_rate_limit h now t) = true)
      by (by rewrite gate_without_redis).
    destruct (fire_accepted_stats h now t ev sinks He Hg) as [Hst Hrc].
    rewrite Hst, Hrc, (fire_accepted h now t ev sinks He Hg).
    by rewrite gate_without_redis.
  - intros ev fires He. by apply fire_all_without_redis.
Qed.

Lemma rate_limit_unenforced_without_redis_witness :
  _check_rate_limit __init__ 0 critical_alert = (true, __init__) /\
  executions
    (stats_of (fire_all __init__ limited_once alert_severity_9
                 [(0, sinks_up); (1, sinks_up); (2, sinks_up)])
       "limited-once") = 3.
Proof.
  split.
  - apply (rate_limit_unenforced_without_redis __init__ 0 critical_alert).
    reflexivity.
  - destruct (rate_limit_unenforced_without_redis __init__ 0 limited_once
                eq_refl) as (_ & _ & Hall).
    exact (Hall alert_severity_9 [(0, sinks_up); (1, sinks_up); (2, sinks_up)]
             eq_refl).
Defined.

(** ** Cooldown *)

(** The fire of a trigger does not depend on its [cooldown]. *)
Lemma cooldown_never_read (h : TriggerHandler) (now : Z) (t : TriggerConfig)
  (ev : EventPayload) (sinks : nat -> Z -> option exn) (c : option Q) :
  _execute_trigger h now (set_cooldown t c) ev sinks
    = _execute_trigger h now t ev sinks.
Proof. reflexivity. Qed.

(** C1, at the input where the code departs from it: the default trigger
    [critical-alert] ([cooldown] 300 seconds, [rate_limit] 10) on a handler
    with a Redis client, fired at instant 0 and again at instant 1. The gate
    passes the second fire, 299 seconds early, and both of its actions are
    sent. *)
Theorem cooldown_second_fire_accepted :
  cooldown critical_alert = Some 300%Q /\
  executions
    (stats_of (fst (_execute_trigger (initialize __init__ ∅) 0 critical_alert
                      alert_severity_9 sinks_up)) "critical-alert") = 1 /\
  fst (_check_rate_limit
         (fst (_execute_trigger (initialize __init__ ∅) 0 critical_alert
                 alert_severity_9 sinks_up)) 1 critical_alert) = true /\
  executions
    (stats_of (fire_all (initialize __init__ ∅) critical_alert alert_severity_9
                 [(0, sinks_up); (1, sinks_up)]) "critical-alert") = 2 /\
  count_attempts
    (snd (_execute_trigger
            (fst (_execute_trigger (initialize __init__ ∅) 0 critical_alert
                    alert_severity_9 sinks_up))
            1 critical_alert alert_severity_9 sinks_up)) = 2.
Proof. repeat apply conj; vm_compute; reflexivity. Qed.

(** ** The rate-limit window *)


Lemma get_none_find (now : Z) (key : string) (db : gmap string Redis.entry) :
  Redis.get now key db = None -> Redis.find now key db = None.
Proof. unfold Redis.get. by destruct (Redis.find now key db). Qed.

Section Window.
Variables (t : TriggerConfig) (ev : EventPayload) (limit deadline : Z).
Hypothesis Henabled : enabled t = true.
Hypothesis Hlimit : rate_limit t = Some limit.
Hypothesis Hpos : 1 <= limit.

End Window.




(** The counter set at 130 is still there at 190, its expiry instant, and
    the fire is refused; at 191 it is gone. *)
Example refused_at_the_expiry_instant :
  fst (_check_rate_limit
         (fire_all (initialize __init__ ∅) limited_twice alert_severity_9
            [(100, sinks_up); (130, sinks_up)])
         190 limited_twice) = false.
Proof. reflexivity. Qed.

(** ** Registry and disabled triggers *)

Lemma get_in {V} (k : string) (v : V) (d : list (string * V)) :
  PyDict.get k d = Some v -> In (k, v) d.
Proof.
  induction d as [|[k' v'] d IH]; cbn; [done|].
  destruct (String.eqb k k') eqn:E.
  - apply String.eqb_eq in E. subst k'. intros [= ->]. by left.
  - intros H. right. auto.
Qed.

Lemma mem_set {V} (k k' : string) (v : V) (d : list (string * V)) :
  PyDict.mem k' (PyDict.set k v d) = PyDict.mem k' d || String.eqb k' k.
Proof.
  unfold PyDict.mem. destruct (String.eqb k' k) eqn:E.
  - apply String.eqb_eq in E. subst k'. rewrite get_set_same. by rewrite orb_true_r.
  - rewrite get_set_other, orb_false_r; [done|].
    intros ->. by rewrite String.eqb_refl in E.
Qed.

Lemma mem_del {V} (k k' : string) (d : list (string * V)) :
  PyDict.mem k' d = false -> PyDict.mem k' (PyDict.del k d) = false.
Proof.
  unfold PyDict.mem. induction d as [|[k0 v0] d IH]; cbn; [done|].
  destruct (String.eqb k' k0) eqn:E; [done|]. intros H.
  destruct (String.eqb k k0); [exact H|]. cbn. rewrite E. auto.
Qed.

(** In a well-formed registry an entry is found under its own name. *)
Lemma registry_entry (trs : list (string * TriggerConfig)) (k : string)
  (cfg : TriggerConfig) :
  registry_ok trs = true -> In (k, cfg) trs ->
  name cfg = k /\ PyDict.get k trs = Some cfg.
Proof.
  induction trs as [|[k0 c0] trs IH]; cbn; [done|].
  intros Hok Hin.
  apply andb_true_iff in Hok as [Hok Hrest].
  apply andb_true_iff in Hok as [Hname Hfresh].
  apply String.eqb_eq in Hname. apply negb_true_iff in Hfresh.
  destruct Hin as [[= <- <-] | Hin].
  - by rewrite String.eqb_refl.
  - destruct (IH Hrest Hin) as [Hn Hg]. split; [exact Hn|].
    destruct (String.eqb k k0) eqn:E; [|exact Hg].
    apply String.eqb_eq in E. unfold PyDict.mem in Hfresh.
    by rewrite <- E, Hg in Hfresh.
Qed.

Lemma registry_ok_init : registry_ok (triggers __init__) = true.
Proof. reflexivity. Qed.

Lemma registry_ok_set (trs : list (string * TriggerConfig)) (cfg : TriggerConfig) :
  registry_ok trs = true ->
  registry_ok (PyDict.set (name cfg) cfg trs) = true.
Proof.
  induction trs as [|[k0 c0] trs IH]; cbn.
  - intros _. by rewrite String.eqb_refl.
  - intros Hok.
    apply andb_true_iff in Hok as [Hok Hrest].
    apply andb_true_iff in Hok as [Hname Hfresh].
    destruct (String.eqb (name cfg) k0) eqn:E; cbn.
    + apply String.eqb_eq in E. subst k0.
      by rewrite String.eqb_refl, Hfresh, Hrest.
    + rewrite Hname, (IH Hrest), mem_set. cbn.
      apply negb_true_iff in Hfresh. rewrite Hfresh. cbn.
      rewrite String.eqb_sym. by rewrite E.
Qed.

(** [add_trigger] and [remove_trigger] keep the registry well formed. *)
Lemma registry_ok_add (h : TriggerHandler) (trigger_name : string)
  (cfg : TriggerConfig) :
  registry_ok (triggers h) = true ->
  registry_ok (triggers (add_trigger h trigger_name cfg)) = true.
Proof.
  intros Hok. unfold add_trigger. cbn [triggers with_triggers].
  exact (registry_ok_set (triggers h)
           {| name := trigger_name;
              conditions := conditions cfg;
              actions := actions cfg;
              enabled := enabled cfg;
              trigger_metadata := trigger_metadata cfg;
              rate_limit := rate_limit cfg;
              cooldown := cooldown cfg |} Hok).
Qed.

Lemma registry_ok_del (trs : list (string * TriggerConfig)) (k : string) :
  registry_ok trs = true -> registry_ok (PyDict.del k trs) = true.
Proof.
  induction trs as [|[k0 c0] trs IH]; cbn; [done|].
  intros Hok.
  apply andb_true_iff in Hok as [Hok Hrest].
  apply andb_true_iff in Hok as [Hname Hfresh].
  destruct (String.eqb k k0); [exact Hrest|]. cbn.
  rewrite Hname, (IH Hrest). apply negb_true_iff in Hfresh.
  by rewrite (mem_del k k0 trs Hfresh).
Qed.

Lemma registry_ok_remove (h h' : TriggerHandler) (trigger_name : string) :
  registry_ok (triggers h) = true ->
  remove_trigger h trigger_name = Some h' ->
  registry_ok (triggers h') = true.
Proof.
  unfold remove_trigger. intros Hok.
  destruct (PyDict.mem trigger_name (triggers h)); [|done].
  intros [= <-]. cbn. by apply registry_ok_del.
Qed.

(** The matching triggers are triggers of the registry. *)
Lemma matching_in_registry (ev : EventPayload) :
  forall (trs : list (string * TriggerConfig)) (ms : list TriggerConfig),
    matching_triggers trs ev = Ret ms ->
    forall m, In m ms -> exists k, In (k, m) trs.
Proof.
  induction trs as [|[k cfg] trs IH]; cbn; intros ms Hm m Hin.
  - injection Hm as <-. destruct Hin.
  - destruct (_evaluate_conditions (conditions cfg) ev) as [b|e]; [|done].
    cbn in Hm. destruct (matching_triggers trs ev) as [ms'|e]; [|done].
    cbn in Hm. injection Hm as <-.
    destruct b.
    + destruct Hin as [<- | Hin]; [exists k; by left|].
      destruct (IH ms' eq_refl m Hin) as [k' Hk']. exists k'. by right.
    + destruct (IH ms' eq_refl m Hin) as [k' Hk']. exists k'. by right.
Qed.

(** Running triggers of which those named [n] are disabled leaves the
    statistics under [n] alone and yields, under [n], the debug line only. *)
Lemma execute_matching_disabled (n : string) (w : world) (ev : EventPayload) :
  forall (ms : list TriggerConfig) (h : TriggerHandler) (i : nat),
    (forall m, In m ms -> name m = n -> enabled m = false) ->
    trigger_stats (fst (execute_matching h w i ms ev)) !! n
      = trigger_stats h !! n /\
    (forall effs, In (n, effs) (snd (execute_matching h w i ms ev)) ->
                  effs = [Log DEBUG "Trigger is disabled"]).
Proof.
  induction ms as [|m ms IH]; intros h i Hdis; cbn [execute_matching].
  - split; [done | intros effs []].
  - destruct (_execute_trigger h (clock w i) m ev (sink w i)) as [h1 effs1] eqn:E1.
    specialize (IH h1 (S i)).
    destruct (execute_matching h1 w (S i) ms ev) as [h2 tr] eqn:E2.
    destruct IH as [IHs IHt]; [intros m' Hm'; apply Hdis; by right|].
    cbn [fst snd] in *.
    destruct (String.eqb (name m) n) eqn:En.
    + apply String.eqb_eq in En.
      rewrite (fire_disabled h (clock w i) m ev (sink w i)
                 (Hdis m (or_introl eq_refl) En)) in E1.
      injection E1 as <- <-. split; [exact IHs|].
      intros effs [[= _ <-] | Hin]; [done | by apply IHt].
    + assert (Hne : n <> name m)
        by (intros ->; by rewrite String.eqb_refl in En).
      split.
      * rewrite IHs.
        pose proof (fire_other_stats h (clock w i) m ev (sink w i) n Hne) as Ho.
        by rewrite E1 in Ho.
      * intros effs [[= Hn _] | Hin]; [congruence | by apply IHt].
Qed.

(** C8: in a well-formed registry, a trigger registered with
    [enabled = false] is never run by [process_event], whatever the event
    and whether or not its conditions match: the statistics under its name
    are what they were, and the only effect that can appear under its name
    is the "disabled" debug line, so none of its actions is sent. *)
Theorem disabled_trigger_never_runs (h : TriggerHandler) (w : world)
  (ev : EventPayload) (source : string) (n : string) (t : TriggerConfig) :
  registry_ok (triggers h) = true ->
  PyDict.get n (triggers h) = Some t ->
  enabled t = false ->
  trigger_stats (snd (fst (process_event h w ev source))) !! n
    = trigger_stats h !! n /\
  (forall effs, In (n, effs) (snd (process_event h w ev source)) ->
     effs = [Log DEBUG "Trigger is disabled"] /\ sends effs = []).
Proof.
  intros Hok Hget Hoff. unfold process_event.
  destruct (matching_triggers (triggers h) ev) as [ms|e] eqn:Hm;
    [|split; [done | intros effs []]].
  assert (Hdis : forall m, In m ms -> name m = n -> enabled m = false).
  { intros m Hin Hn.
    destruct (matching_in_registry ev _ _ Hm m Hin) as [k Hk].
    destruct (registry_entry _ _ _ Hok Hk) as [Hname Hg].
    replace k with n in Hg by congruence.
    rewrite Hget in Hg. by injection Hg as <-. }
  destruct (execute_matching_disabled n w ev ms h 0%nat Hdis) as [Hs Ht].
  destruct (execute_matching h w 0 ms ev) as [h' tr]. cbn [fst snd] in *.
  split; [exact Hs|].
  intros effs Hin. by rewrite (Ht effs Hin).
Qed.

Lemma disabled_trigger_never_runs_witness :
  _evaluate_conditions (conditions muted_alert) alert_severity_9 = Ret true /\
  trigger_stats
    (snd (fst (process_event (add_trigger __init__ "muted-alert" muted_alert)
                 calm_world alert_severity_9 "generic"))) !! "muted-alert"
    = None /\
  In ("muted-alert", [Log DEBUG "Trigger is disabled"])
    (snd (process_event (add_trigger __init__ "muted-alert" muted_alert)
            calm_world alert_severity_9 "generic")).
Proof.
  split; [reflexivity|].
  destruct (disabled_trigger_never_runs
              (add_trigger __init__ "muted-alert" muted_alert) calm_world
              alert_severity_9 "generic" "muted-alert" muted_alert
              eq_refl eq_refl eq_refl) as [Hs _].
  split; [exact Hs|].
  cbn. right. left. reflexivity.
Defined.

(** * Further properties *)

(** ** Conjunction of conditions *)

Lemma conditions_true_iff (ev : EventPayload) (cs : list Condition) :
  _evaluate_conditions cs ev = Ret true <->
  Forall (fun c => _evaluate_condition c ev = Ret true) cs.
Proof.
  induction cs as [|c cs IH]; cbn [_evaluate_conditions].
  - split; [constructor | done].
  - destruct (_evaluate_condition c ev) as [[|]|e] eqn:Hc; cbn.
    + rewrite IH. split; [by constructor|]. by inversion 1.
    + split; [done|]. inversion 1; congruence.
    + split; [done|]. inversion 1; congruence.
Qed.

Lemma conditions_after_true_prefix (ev : EventPayload) (pre rest : list Condition) :
  Forall (fun c => _evaluate_condition c ev = Ret true) pre ->
  _evaluate_conditions (pre ++ rest) ev = _evaluate_conditions rest ev.
Proof.
  induction 1 as [|c pre Hc _ IH]; [done|].
  cbn [app _evaluate_conditions]. rewrite Hc. exact IH.
Qed.

(** [_evaluate_conditions] is a left-to-right conjunction that stops at the
    first condition that is not true: the result is true exactly when every
    condition is true; a false condition after true ones makes it false
    whatever follows, conditions that would raise included; a raising
    condition after true ones makes it raise. *)
Theorem evaluate_conditions_short_circuit (ev : EventPayload) :
  (forall cs,
     _evaluate_conditions cs ev = Ret true <->
     Forall (fun c => _evaluate_condition c ev = Ret true) cs) /\
  (forall pre c post,
     Forall (fun c => _evaluate_condition c ev = Ret true) pre ->
     _evaluate_condition c ev = Ret false ->
     _evaluate_conditions (pre ++ c :: post) ev = Ret false) /\
  (forall pre c post e,
     Forall (fun c => _evaluate_condition c ev = Ret true) pre ->
     _evaluate_condition c ev = Raise e ->
     _evaluate_conditions (pre ++ c :: post) ev = Raise e).
Proof.
  split; [apply conditions_true_iff|]. split.
  - intros pre c post Hpre Hc.
    rewrite (conditions_after_true_prefix ev pre _ Hpre).
    cbn [_evaluate_conditions]. by rewrite Hc.
  - intros pre c post e Hpre Hc.
    rewrite (conditions_after_true_prefix ev pre _ Hpre).
    cbn [_evaluate_conditions]. by rewrite Hc.
Qed.

Lemma evaluate_conditions_short_circuit_witness :
  _evaluate_conditions
    ([mk_condition "event_type" EQ (VStr "alert.critical")]
       ++ mk_condition "source" EQ (VStr "github")
       :: [mk_condition "data.severity" GTE (VInt 8)])
    alert_without_severity = Ret false.
Proof.
  destruct (evaluate_conditions_short_circuit alert_without_severity)
    as (_ & Hfalse & _).
  apply Hfalse; [|reflexivity].
  constructor; [reflexivity | constructor].
Defined.

(** ** Field paths *)

Lemma qcompare_inject (a b : Z) : (inject_Z a ?= inject_Z b)%Q = (a ?= b).
Proof. unfold Qcompare. cbn. by rewrite !Z.mul_1_r. Qed.

(** The field paths [_extract_value] understands: the two bare names, and
    [data.<key>] and [metadata.<key>], which read the one key made of
    everything after the prefix, dots included. Any other path gives
    [None]. *)
Theorem extract_value_paths (ev : EventPayload) :
  _extract_value "event_type" ev = VStr (event_type ev) /\
  _extract_value "source" ev = VStr (source ev) /\
  (forall key,
     _extract_value (String.append "data." key) ev
       = get_or_none key (data ev)) /\
  (forall key,
     _extract_value (String.append "metadata." key) ev
       = match PyDict.get key (metadata ev) with
         | Some s => VStr s
         | None => VNone
         end) /\
  (forall f,
     f <> "event_type" -> f <> "source" ->
     String.prefix "data." f = false ->
     String.prefix "metadata." f = false ->
     _extract_value f ev = VNone).
Proof.
  repeat apply conj; try reflexivity.
  - intros key. unfold _extract_value. cbn.
    change (String.append "" key) with key. by destruct key.
  - intros key. unfold _extract_value. cbn.
    change (String.append "" key) with key. by destruct key.
  - intros f H1 H2 H3 H4. apply extract_unknown_path; try done.
    + by apply String.eqb_neq.
    + by apply String.eqb_neq.
Qed.

Lemma extract_value_paths_witness :
  _extract_value "event_id" alert_severity_9 = VNone /\
  _extract_value "data.severity" alert_severity_9 = VInt 9.
Proof.
  destruct (extract_value_paths alert_severity_9) as (_ & _ & Hd & _ & Hno).
  split; [by apply Hno | exact (Hd "severity")].
Defined.

(** ** Ordering operators on integers *)

(** On an integer field against an integer literal the four ordering
    operators never raise and are the comparisons of the integers: the
    field is on the left, the literal on the right. *)
Theorem ordering_on_integers (c : Condition) (ev : EventPayload) (s n : Z) :
  _extract_value (field c) ev = VInt s ->
  value c = VInt n ->
  (operator c = GT -> _evaluate_condition c ev = Ret (n <? s)) /\
  (operator c = LT -> _evaluate_condition c ev = Ret (s <? n)) /\
  (operator c = GTE -> _evaluate_condition c ev = Ret (n <=? s)) /\
  (operator c = LTE -> _evaluate_condition c ev = Ret (s <=? n)).
Proof.
  intros Hx Hv. unfold _evaluate_condition, compare_op. rewrite Hx, Hv.
  cbn [py_order num_of]. rewrite qcompare_inject.
  repeat apply conj; intros ->; f_equal;
    unfold Z.ltb, Z.leb; rewrite (Z.compare_antisym s n);
    by destruct (s ?= n).
Qed.

Lemma ordering_on_integers_witness :
  _evaluate_condition (mk_condition "data.severity" GTE (VInt 8))
    alert_severity_9 = Ret true.
Proof.
  destruct (ordering_on_integers (mk_condition "data.severity" GTE (VInt 8))
              alert_severity_9 9 8 eq_refl eq_refl) as (_ & _ & Hge & _).
  exact (Hge eq_refl).
Defined.

(** ** The [contains] and [regex] operators *)

Lemma append_cons (a : ascii) (s t : string) :
  String.append (String a s) t = String a (String.append s t).
Proof. reflexivity. Qed.

Lemma prefix_spec (needle hay : string) :
  String.prefix needle hay = true <->
  exists post, hay = String.append needle post.
Proof.
  revert hay. induction needle as [|a needle IH]; intros hay.
  - split; [intros _; by exists hay | intros _; by destruct hay].
  - destruct hay as [|b hay]; cbn [String.prefix].
    + split; [done | intros [post H]; by rewrite append_cons in H].
    + destruct (ascii_dec a b) as [-> | Hne].
      * rewrite IH. split; intros [post H]; exists post.
        -- by rewrite append_cons, H.
        -- rewrite append_cons in H. by injection H.
      * split; [done|]. intros [post H]. rewrite append_cons in H.
        injection H as H _. congruence.
Qed.

(** [is_substring] finds exactly the occurrences. *)
Lemma is_substring_spec (needle hay : string) :
  is_substring needle hay = true <->
  exists pre post, hay = String.append pre (String.append needle post).
Proof.
  induction hay as [|b hay IH]; cbn [is_substring].
  - rewrite orb_false_r, prefix_spec. split.
    + intros [post H]. by exists EmptyString, post.
    + intros [[|a pre] [post H]]; [by exists post|].
      by rewrite append_cons in H.
  - rewrite orb_true_iff, prefix_spec, IH. split.
    + intros [[post H] | [pre [post H]]].
      * by exists EmptyString, post.
      * exists (String b pre), post. by rewrite append_cons, H.
    + intros [[|a pre] [post H]].
      * left. by exists post.
      * right. rewrite append_cons in H. injection H as _ H.
        by exists pre, post.
Qed.

(** [contains]: on a field that is not a string the result is false,
    whatever the literal; on a string field and a string literal it is true
    exactly when the literal occurs in the field; on a string field and a
    literal that is not a string it raises [TypeError]. *)
Theorem contains_behaviour (c : Condition) (ev : EventPayload) :
  operator c = CONTAINS ->
  (as_str (_extract_value (field c) ev) = None ->
   _evaluate_condition c ev = Ret false) /\
  (forall hay needle,
     _extract_value (field c) ev = VStr hay ->
     value c = VStr needle ->
     exists b,
       _evaluate_condition c ev = Ret b /\
       (b = true <->
        exists pre post, hay = String.append pre (String.append needle post))) /\
  (forall hay,
     _extract_value (field c) ev = VStr hay ->
     as_str (value c) = None ->
     _evaluate_condition c ev = Raise TypeError).
Proof.
  intros Hop. unfold _evaluate_condition. rewrite Hop. repeat apply conj.
  - by destruct (_extract_value (field c) ev).
  - intros hay needle -> ->. exists (is_substring needle hay).
    split; [done | apply is_substring_spec].
  - intros hay ->. by destruct (value c).
Qed.

Lemma contains_behaviour_witness :
  _evaluate_condition (mk_condition "data.severity" CONTAINS (VStr "9"))
    alert_severity_9 = Ret false /\
  _evaluate_condition (mk_condition "event_type" CONTAINS (VInt 9))
    alert_severity_9 = Raise TypeError.
Proof.
  split.
  - apply (contains_behaviour
             (mk_condition "data.severity" CONTAINS (VStr "9"))
             alert_severity_9 eq_refl). reflexivity.
  - destruct (contains_behaviour
                (mk_condition "event_type" CONTAINS (VInt 9))
                alert_severity_9 eq_refl) as (_ & _ & Hraise).
    by apply (Hraise "alert.critical").
Defined.

(** The parser accepts the operator ["regex"], but the evaluator has no
    branch for it: a list of conditions that holds a [regex] condition is
    never true, so a trigger with such a condition never matches. *)
Theorem regex_condition_never_matches (cs : list Condition) (c : Condition)
  (ev : EventPayload) :
  In c cs ->
  operator c = REGEX ->
  ConditionOperator_of (VStr "regex") = Parsed REGEX /\
  _evaluate_condition c ev = Ret false /\
  _evaluate_conditions cs ev <> Ret true.
Proof.
  intros Hin Hop.
  assert (Hc : _evaluate_condition c ev = Ret false)
    by (unfold _evaluate_condition; by rewrite Hop).
  split; [reflexivity|]. split; [exact Hc|].
  intros Htrue. apply conditions_true_iff in Htrue.
  rewrite List.Forall_forall in Htrue. specialize (Htrue c Hin). congruence.
Qed.

Lemma regex_condition_never_matches_witness :
  _evaluate_conditions
    [mk_condition "event_type" REGEX (VStr ".*")] alert_severity_9
    <> Ret true.
Proof.
  apply (regex_condition_never_matches
           [mk_condition "event_type" REGEX (VStr ".*")]
           (mk_condition "event_type" REGEX (VStr ".*")) alert_severity_9);
    [by left | reflexivity].
Defined.

(** ** Every run of an action *)

Lemma total_waits_backoff (k : nat) : forall attempt,
  0 <= attempt ->
  fold_right Z.add 0 (waits (backoff_from attempt k))
    = 2 ^ (attempt + Z.of_nat k) - 2 ^ attempt.
Proof.
  induction k as [|k IH]; intros attempt Ha.
  - cbn. rewrite Z.add_0_r. lia.
  - cbn [backoff_from waits flat_map app fold_right].
    fold (waits (backoff_from (attempt + 1) k)).
    rewrite IH by lia.
    replace (attempt + 1 + Z.of_nat k) with (attempt + Z.of_nat (S k)) by lia.
    rewrite (Z.pow_add_r 2 attempt 1) by lia. lia.
Qed.

(** The shape of the loop's run for a kind with a sink, whatever the sinks
    answer: [k] failed attempts with their delays and a last attempt; the
    run raises only when that last attempt is the one numbered [retries]
    and it failed. *)
Lemma attempts_shape (a : Action) (ev : EventPayload) (sink : Z -> option exn) :
  sendable a = true ->
  forall (n : nat) (attempt : Z),
    0 <= attempt ->
    Z.of_nat (S n) + attempt = retries a + 1 ->
    exists k : nat,
      (k <= n)%nat /\
      timeline (snd (attempts (S n) attempt a ev sink)) = backoff_from attempt k /\
      (forall i, attempt <= i < attempt + Z.of_nat k -> sink i <> None) /\
      match fst (attempts (S n) attempt a ev sink) with
      | Ret _ => sink (attempt + Z.of_nat k) = None
      | Raise e =>
          sink (attempt + Z.of_nat k) = Some e /\
          attempt + Z.of_nat k = retries a
      end.
Proof.
  intros Hs. induction n as [|n IH]; intros attempt Ha Hn.
  - destruct (dispatch_sendable a ev (sink attempt) Hs) as (effs & Hd & Htl & _).
    exists O. rewrite Z.add_0_r. split; [lia|].
    cbn [attempts]. rewrite Hd.
    destruct (sink attempt) as [e|] eqn:H0.
    + rewrite (proj2 (Z.eqb_eq attempt (retries a))) by lia. cbn [fst snd].
      rewrite timeline_app, Htl. split; [done|]. split; [lia|]. split; [done|lia].
    + cbn [fst snd]. rewrite timeline_app, Htl. split; [done|]. split; [lia|done].
  - destruct (dispatch_sendable a ev (sink attempt) Hs) as (effs & Hd & Htl & _).
    remember (S n) as m eqn:Hm.
    cbn [attempts]. rewrite Hd.
    destruct (sink attempt) as [e|] eqn:H0.
    + rewrite (proj2 (Z.eqb_neq attempt (retries a))) by lia.
      destruct (IH (attempt + 1)) as (k & Hk & Hshape & Hfail & Hend); [lia | lia |].
      subst m.
      destruct (attempts (S n) (attempt + 1) a ev sink) as [r rest].
      cbn [fst snd] in *. exists (S k). split; [lia|].
      rewrite timeline_app, Htl. cbn [timeline app backoff_from].
      rewrite Hshape. split; [done|].
      replace (attempt + Z.of_nat (S k)) with (attempt + 1 + Z.of_nat k) by lia.
      split; [|exact Hend].
      intros i Hi. destruct (Z.eq_dec i attempt) as [-> | Hne]; [congruence|].
      apply Hfail. lia.
    + exists O. rewrite Z.add_0_r. cbn [fst snd].
      rewrite timeline_app, Htl. split; [lia|]. split; [done|]. split; [lia|done].
Qed.

Lemma execute_action_quiet (a : Action) (ev : EventPayload)
  (sink : Z -> option exn) :
  sendable a = false \/ retries a < 0 ->
  fst (_execute_action a ev sink) = Ret tt /\
  timeline (snd (_execute_action a ev sink)) = [].
Proof.
  unfold _execute_action. intros [Hs | Hr].
  - destruct (Z.to_nat (retries a + 1)) as [|n]; [done|].
    cbn [attempts]. unfold sendable in Hs. unfold dispatch.
    by destruct (type a).
  - by replace (Z.to_nat (retries a + 1)) with O by lia.
Qed.

(** A run of [_execute_action] raises only after the action's last
    attempt: the kind has a sink, [retries] is not negative, every attempt
    from 0 to [retries] failed, all [retries + 1] were made, and the
    exception is the one of the last attempt. *)
Theorem failure_only_after_all_retries (a : Action) (ev : EventPayload)
  (sink : Z -> option exn) (e : exn) :
  fst (_execute_action a ev sink) = Raise e ->
  sendable a = true /\
  0 <= retries a /\
  (forall i, 0 <= i <= retries a -> sink i <> None) /\
  sink (retries a) = Some e /\
  count_attempts (snd (_execute_action a ev sink)) = retries a + 1.
Proof.
  intros Hraise.
  destruct (sendable a) eqn:Hs;
    [| by rewrite (proj1 (execute_action_quiet a ev sink (or_introl Hs)))
         in Hraise].
  destruct (Z.ltb_spec (retries a) 0) as [Hneg | Hpos];
    [by rewrite (proj1 (execute_action_quiet a ev sink (or_intror Hneg)))
       in Hraise|].
  unfold _execute_action in *.
  replace (Z.to_nat (retries a + 1)) with (S (Z.to_nat (retries a))) in * by lia.
  destruct (attempts_shape a ev sink Hs (Z.to_nat (retries a)) 0)
    as (k & Hk & Hshape & Hfail & Hend); [lia | lia |].
  rewrite Hraise in Hend. destruct Hend as [He Hlast].
  rewrite Z.add_0_l in *. rewrite Hlast in He.
  split; [done|]. split; [done|]. split.
  - intros i Hi. destruct (Z.eq_dec i (retries a)) as [-> | Hne]; [congruence|].
    apply Hfail. lia.
  - split; [exact He|].
    unfold count_attempts. rewrite sends_timeline, Hshape, tries_backoff. lia.
Qed.

Lemma failure_only_after_all_retries_witness :
  count_attempts (snd (_execute_action page_action alert_severity_9 sink_down))
    = 4.
Proof.
  apply (failure_only_after_all_retries page_action alert_severity_9 sink_down
           (SinkError "unreachable")).
  reflexivity.
Defined.

(** Whatever the kind of the action and whatever the sinks answer, a run
    makes at most [retries + 1] attempts (none when [retries] is negative),
    its delays are [2 ^ 0, 2 ^ 1, ...] in order, one less than the attempts
    made for a kind with a sink, and it sleeps less than [2 ^ retries]
    seconds in all. *)
Theorem execute_action_bounds (a : Action) (ev : EventPayload)
  (sink : Z -> option exn) :
  0 <= count_attempts (snd (_execute_action a ev sink))
    <= Z.max 0 (retries a + 1) /\
  (exists k : nat,
     sleeps (snd (_execute_action a ev sink))
       = map (fun i => 2 ^ Z.of_nat i) (seq 0 k) /\
     Z.of_nat k <= Z.max 0 (retries a) /\
     (sendable a = true -> 0 <= retries a ->
      count_attempts (snd (_execute_action a ev sink)) = Z.of_nat k + 1)) /\
  0 <= total_sleep (snd (_execute_action a ev sink))
    <= 2 ^ (Z.max 0 (retries a)) - 1.
Proof.
  unfold total_sleep, count_attempts.
  rewrite sends_timeline, sleeps_timeline.
  destruct (sendable a) eqn:Hs; [destruct (Z.ltb_spec (retries a) 0) as [Hneg|Hpos]|].
  - rewrite (proj2 (execute_action_quiet a ev sink (or_intror Hneg))).
    cbn. split; [lia|]. split; [|rewrite Z.max_l by lia; cbn; lia].
    exists O. split; [done|]. split; [lia|]. intros _ ?. lia.
  - unfold _execute_action.
    replace (Z.to_nat (retries a + 1)) with (S (Z.to_nat (retries a))) by lia.
    destruct (attempts_shape a ev sink Hs (Z.to_nat (retries a)) 0)
      as (k & Hk & Hshape & _); [lia | lia |].
    rewrite Hshape, tries_backoff, waits_backoff, <- waits_backoff.
    rewrite total_waits_backoff by lia. rewrite waits_backoff.
    rewrite Z.add_0_l, Z.pow_0_r. rewrite (Z.max_r 0 (retries a)) by lia.
    split; [lia|]. split.
    + exists k. split; [|split; [lia | intros _ _; lia]].
      apply map_ext. intros i. by rewrite Z.add_0_l.
    + assert (2 ^ Z.of_nat k <= 2 ^ retries a)
        by (apply Z.pow_le_mono_r; lia).
      pose proof (Z.pow_pos_nonneg 2 (Z.of_nat k)). lia.
  - rewrite (proj2 (execute_action_quiet a ev sink (or_introl Hs))).
    cbn. split; [lia|]. split.
    + exists O. split; [done|]. split; [lia | done].
    + pose proof (Z.pow_pos_nonneg 2 (Z.max 0 (retries a))). lia.
Qed.

Lemma execute_action_bounds_witness :
  count_attempts (snd (_execute_action page_action alert_severity_9 sink_up_at_2))
    <= 4 /\
  total_sleep (snd (_execute_action page_action alert_severity_9 sink_up_at_2))
    <= 7.
Proof.
  destruct (execute_action_bounds page_action alert_severity_9 sink_up_at_2)
    as (Hc & _ & Ht).
  split; [apply Hc | apply Ht].
Defined.

(** A [grpc] action is logged, never sent: whatever [retries] and the
    sinks, its run returns normally without an attempt or a delay, so every
    fire counts it as a success. *)
Theorem grpc_action_is_log_only (a : Action) (ev : EventPayload)
  (sink : Z -> option exn) :
  type a = GRPC ->
  fst (_execute_action a ev sink) = Ret tt /\
  sends (snd (_execute_action a ev sink)) = [] /\
  sleeps (snd (_execute_action a ev sink)) = [] /\
  (forall t sinks i, actions t !! i = Some a ->
     outcomes t ev sinks !! i = Some (Ret tt)).
Proof.
  intros Hty.
  assert (Hq : forall s, fst (_execute_action a ev s) = Ret tt /\
                         timeline (snd (_execute_action a ev s)) = []).
  { intros s. apply execute_action_quiet. left. unfold sendable.
    by rewrite Hty. }
  destruct (Hq sink) as [Hr Htl]. split; [exact Hr|].
  split.
  - pose proof (sends_timeline (snd (_execute_action a ev sink))) as Hlen.
    rewrite Htl in Hlen. by destruct (sends _).
  - split; [by rewrite sleeps_timeline, Htl|].
    intros t sinks i Ha.
    destruct (outcomes_lookup t ev sinks i a Ha) as [-> _].
    by rewrite (proj1 (Hq (sinks i))).
Qed.

Lemma grpc_action_is_log_only_witness :
  fst (_execute_action
         (mk_action GRPC "data-processor:50051" [("method", VStr "ProcessFile")] [])
         alert_severity_9 sink_down) = Ret tt.
Proof.
  apply (grpc_action_is_log_only
           (mk_action GRPC "data-processor:50051"
              [("method", VStr "ProcessFile")] [])
           alert_severity_9 sink_down eq_refl).
Defined.

(** ** More on the rate limiter *)

Lemma rate_limit_key_inj (t u : TriggerConfig) :
  rate_limit_key t = rate_limit_key u -> name t = name u.
Proof.
  unfold rate_limit_key. rewrite !append_cons.
  change (String.append "" (name t)) with (name t).
  change (String.append "" (name u)) with (name u).
  congruence.
Qed.

(** The gate writes under the trigger's own key only. *)
Lemma gate_other_keys (h : TriggerHandler) (now : Z) (t : TriggerConfig)
  (key : string) :
  key <> rate_limit_key t ->
  (redis_client (snd (_check_rate_limit h now t)) ≫= (.!! key))
    = (redis_client h ≫= (.!! key)) /\
  (redis_client h = None <-> redis_client (snd (_check_rate_limit h now t)) = None).
Proof.
  intros Hk. unfold _check_rate_limit.
  destruct (rate_limit t) as [limit|], (redis_client h) as [db|] eqn:Hr;
    cbn [snd]; rewrite ?Hr; try done.
  destruct (limit =? 0); [cbn [snd]; by rewrite Hr|].
  assert (Hw : Redis.expire now (rate_limit_key t) 60
                 (Redis.incr now (rate_limit_key t) db) !! key = db !! key).
  { unfold Redis.expire, Redis.incr.
    destruct (Redis.find now (rate_limit_key t) db);
      destruct (Redis.find now (rate_limit_key t) _);
      by rewrite ?lookup_insert_ne by done. }
  destruct (Redis.get now (rate_limit_key t) db) as [current|].
  - destruct (limit <=? current); [cbn [snd]; by rewrite Hr|].
    cbn. by rewrite Hw.
  - cbn. by rewrite Hw.
Qed.

Lemma fire_other_keys (h : TriggerHandler) (now : Z) (t : TriggerConfig)
  (ev : EventPayload) (sinks : nat -> Z -> option exn) (key : string) :
  key <> rate_limit_key t ->
  (redis_client (fst (_execute_trigger h now t ev sinks)) ≫= (.!! key))
    = (redis_client h ≫= (.!! key)) /\
  (redis_client h = None <->
   redis_client (fst (_execute_trigger h now t ev sinks)) = None).
Proof.
  intros Hk. destruct (enabled t) eqn:He; [|by rewrite fire_disabled].
  destruct (fst (_check_rate_limit h now t)) eqn:Hg; [|by rewrite fire_refused].
  destruct (fire_accepted_stats h now t ev sinks He Hg) as [_ ->].
  by apply gate_other_keys.
Qed.

(** The answer of the gate is read off the trigger's own key. *)
Lemma gate_answer_by_key (h h' : TriggerHandler) (now : Z) (u : TriggerConfig) :
  (redis_client h' ≫= (.!! rate_limit_key u))
    = (redis_client h ≫= (.!! rate_limit_key u)) ->
  (redis_client h = None <-> redis_client h' = None) ->
  fst (_check_rate_limit h' now u) = fst (_check_rate_limit h now u) /\
  counter_at h' now u = counter_at h now u.
Proof.
  intros Hk Hn. unfold _check_rate_limit, counter_at.
  destruct (redis_client h) as [db|], (redis_client h') as [db'|]; cbn in *.
  - assert (Hget : Redis.get now (rate_limit_key u) db'
                   = Redis.get now (rate_limit_key u) db)
      by (unfold Redis.get, Redis.find; by rewrite Hk).
    rewrite Hget. split; [|done].
    destruct (rate_limit u) as [limit|]; [|done].
    destruct (limit =? 0); [done|].
    destruct (Redis.get now (rate_limit_key u) db) as [c|]; [|done].
    by destruct (limit <=? c).
  - destruct Hn as [_ Hn]. by specialize (Hn eq_refl).
  - destruct Hn as [Hn _]. by specialize (Hn eq_refl).
  - split; [|done]. by destruct (rate_limit u).
Qed.

(** The rate limits of triggers with different names do not interfere: a
    fire of [t], executed or not, leaves the counter of [u] and the gate's
    answer for [u], at any instant, what they were. *)
Theorem rate_limits_are_per_trigger (h : TriggerHandler) (now now' : Z)
  (t u : TriggerConfig) (ev : EventPayload) (sinks : nat -> Z -> option exn) :
  name t <> name u ->
  fst (_check_rate_limit (fst (_execute_trigger h now t ev sinks)) now' u)
    = fst (_check_rate_limit h now' u) /\
  counter_at (fst (_execute_trigger h now t ev sinks)) now' u
    = counter_at h now' u.
Proof.
  intros Hne.
  assert (Hkey : rate_limit_key u <> rate_limit_key t)
    by (intros Heq; apply Hne; symmetry; by apply rate_limit_key_inj).
  destruct (fire_other_keys h now t ev sinks _ Hkey) as [Hk Hn].
  by apply gate_answer_by_key.
Qed.

Lemma rate_limits_are_per_trigger_witness :
  fst (_check_rate_limit
         (fst (_execute_trigger (initialize __init__ ∅) 0 limited_once
                 alert_severity_9 sinks_up)) 1 limited_twice) = true.
Proof.
  destruct (rate_limits_are_per_trigger (initialize __init__ ∅) 0 1
              limited_once limited_twice alert_severity_9 sinks_up)
    as [Hg _]; [discriminate|].
  rewrite Hg. reflexivity.
Defined.

(** Fires each less than 60 seconds after the one before, while the
    counter is below the limit, all pass; the counter counts them and lives
    60 seconds from the last one. *)
Lemma fire_all_paced (t : TriggerConfig) (ev : EventPayload) (limit : Z) :
  enabled t = true -> rate_limit t = Some limit -> 1 <= limit ->
  forall (fires : list (Z * (nat -> Z -> option exn)))
         (h : TriggerHandler) (db : gmap string Redis.entry) (c prev : Z),
    redis_client h = Some db ->
    db !! rate_limit_key t
      = Some {| Redis.stored := c; Redis.expires_at := Some (prev + 60) |} ->
    paced prev fires = true ->
    c + Z.of_nat (length fires) <= limit ->
    exists db',
      redis_client (fire_all h t ev fires) = Some db' /\
      db' !! rate_limit_key t
        = Some {| Redis.stored := c + Z.of_nat (length fires);
                  Redis.expires_at := Some (last_instant prev fires + 60) |} /\
      executions (stats_of (fire_all h t ev fires) (name t))
        = executions (stats_of h (name t)) + Z.of_nat (length fires).
Proof.
  intros He Hl Hpos.
  induction fires as [|[now sinks] fires IH]; intros h db c prev Hr Hk Hp Hc.
  - exists db. cbn. rewrite !Z.add_0_r. done.
  - cbn [paced] in Hp.
    apply andb_true_iff in Hp as [Hp Hrest].
    apply andb_true_iff in Hp as [Hp Hn].
    apply Z.leb_le in Hp. apply Z.ltb_lt in Hn. cbn [length] in Hc.
    destruct (gate_below h db t limit Hr Hl Hpos now c (prev + 60) Hk)
      as (db1 & Hg & Hk1); [lia | lia |].
    assert (Hg1 : fst (_check_rate_limit h now t) = true) by (by rewrite Hg).
    destruct (fire_accepted_stats h now t ev sinks He Hg1) as [Hst Hrc].
    rewrite Hg in Hrc. cbn in Hrc.
    destruct (IH (fst (_execute_trigger h now t ev sinks)) db1 (c + 1) now
                Hrc Hk1 Hrest) as (db' & Hr' & Hk' & Hex'); [lia|].
    exists db'. cbn [fire_all last_instant length].
    split; [exact Hr'|]. split.
    + rewrite Hk'. do 2 f_equal. lia.
    + rewrite Hex', Hst. cbn. lia.
Qed.

(** The window slides: every executed fire renews the 60 seconds of the
    counter. [N] fires from a fresh counter, each less than 60 seconds after
    the one before, are all executed however long they take together; after
    them every fire less than 60 seconds after the last executed one is
    refused, also when more than 60 seconds have passed since the first. *)
Theorem rate_limit_window_slides (h : TriggerHandler)
  (db : gmap string Redis.entry) (t : TriggerConfig) (ev : EventPayload)
  (N t0 : Z) (s0 : nat -> Z -> option exn)
  (rest : list (Z * (nat -> Z -> option exn))) :
  redis_client h = Some db ->
  enabled t = true ->
  rate_limit t = Some N ->
  1 <= N ->
  Redis.get t0 (rate_limit_key t) db = None ->
  paced t0 rest = true ->
  Z.of_nat (length ((t0, s0) :: rest)) = N ->
  executions (stats_of (fire_all h t ev ((t0, s0) :: rest)) (name t))
    = executions (stats_of h (name t)) + N /\
  (forall now sinks, now < last_instant t0 rest + 60 ->
     _execute_trigger (fire_all h t ev ((t0, s0) :: rest)) now t ev sinks
       = (fire_all h t ev ((t0, s0) :: rest),
          [Log WARNING "Rate limit exceeded"])).
Proof.
  intros Hr He Hl HN Hfresh Hp Hlen.
  destruct (gate_fresh h db t N Hr Hl HN t0 (get_none_find _ _ _ Hfresh))
    as (db1 & Hg & Hk1).
  assert (Hg1 : fst (_check_rate_limit h t0 t) = true) by (by rewrite Hg).
  destruct (fire_accepted_stats h t0 t ev s0 He Hg1) as [Hst Hrc].
  rewrite Hg in Hrc. cbn in Hrc. cbn [length] in Hlen.
  destruct (fire_all_paced t ev N He Hl HN rest
              (fst (_execute_trigger h t0 t ev s0)) db1 1 t0 Hrc Hk1 Hp)
    as (dbN & HrN & HkN & HexN); [lia|].
  cbn [fire_all]. split.
  - rewrite HexN, Hst. cbn. lia.
  - intros now sinks Hnow. apply fire_refused; [exact He|].
    rewrite (gate_at_limit _ dbN t N HrN Hl HN now _ _ HkN); [done | lia | lia].
Qed.

Lemma rate_limit_window_slides_witness :
  _execute_trigger
    (fire_all (initialize __init__ ∅) limited_twice alert_severity_9
       [(0, sinks_up); (59, sinks_up)])
    118 limited_twice alert_severity_9 sinks_up
  = (fire_all (initialize __init__ ∅) limited_twice alert_severity_9
       [(0, sinks_up); (59, sinks_up)],
     [Log WARNING "Rate limit exceeded"]).
Proof.
  destruct (rate_limit_window_slides (initialize __init__ ∅) ∅ limited_twice
              alert_severity_9 2 0 sinks_up [(59, sinks_up)]
              eq_refl eq_refl eq_refl)
    as [_ Hno]; [lia | reflexivity | reflexivity | reflexivity |].
  apply Hno. cbn. lia.
Defined.

Lemma gate_counter_within (limit : Z) (h : TriggerHandler) (now : Z)
  (t : TriggerConfig) :
  rate_limit t = Some limit -> 1 <= limit ->
  counter_within limit h t ->
  counter_within limit (snd (_check_rate_limit h now t)) t.
Proof.
  intros Hl Hpos Hin. unfold _check_rate_limit. rewrite Hl.
  destruct (redis_client h) as [db|] eqn:Hr; [|exact Hin].
  rewrite (proj2 (Z.eqb_neq limit 0)) by lia.
  unfold Redis.get.
  destruct (Redis.find now (rate_limit_key t) db) as [e|] eqn:Hf; cbn.
  - destruct (limit <=? Redis.stored e) eqn:Hle; [exact Hin|].
    apply Z.leb_gt in Hle.
    intros db' e' [= <-] He'. cbn in He'.
    rewrite (incr_expire_live now _ db e Hf) in He'.
    injection He' as <-. cbn. lia.
  - intros db' e' [= <-] He'. cbn in He'.
    rewrite (incr_expire_fresh now _ db Hf) in He'.
    injection He' as <-. cbn. lia.
Qed.

(** The limit holds for fires that come one after the other, and only for
    those. With [rate_limit = N >= 1]: if the stored counter of the trigger
    is at most [N] (as when it does not exist), it is at most [N] after any
    fires run one after the other, at any instants. But the gate is two
    round trips, [GET] and then the pipeline, with an await in between, and
    [_check_rate_limit] is the two with nothing in between: when two fires
    both [GET] a live counter [N - 1] before either has run its pipeline,
    both pass, and after the two pipelines the counter is [N + 1]; run one
    after the other, the second of them is refused. *)
Theorem counter_within_limit_unless_interleaved (h : TriggerHandler)
  (t : TriggerConfig) (ev : EventPayload) (N : Z)
  (fires : list (Z * (nat -> Z -> option exn))) :
  rate_limit t = Some N ->
  1 <= N ->
  counter_within N h t ->
  (counter_within N (fire_all h t ev fires) t /\
   forall now c, counter_at (fire_all h t ev fires) now t = Some c -> c <= N) /\
  (forall h0 now,
     _check_rate_limit h0 now t
       = match gate_get h0 now t with
         | Unlimited => (true, h0)
         | Refuse => (false, h0)
         | Count key => (true, gate_pipeline h0 now key)
         end) /\
  (forall h0 db now x,
     redis_client h0 = Some db ->
     db !! rate_limit_key t
       = Some {| Redis.stored := N - 1; Redis.expires_at := Some x |} ->
     now <= x ->
     gate_get h0 now t = Count (rate_limit_key t) /\
     counter_at
       (gate_pipeline (gate_pipeline h0 now (rate_limit_key t)) now
          (rate_limit_key t)) now t = Some (N + 1) /\
     fst (_check_rate_limit (snd (_check_rate_limit h0 now t)) now t) = false).
Proof.
  intros Hl Hpos Hin0. split; [|split; [intros; apply check_rate_limit_in_steps|]].
  - revert h Hin0.
    assert (Hall : forall h, counter_within N h t ->
                             counter_within N (fire_all h t ev fires) t).
    { induction fires as [|[now sinks] fires IH]; intros h Hin; [exact Hin|].
      cbn [fire_all]. apply IH.
      destruct (enabled t) eqn:He; [|by rewrite fire_disabled].
      destruct (fst (_check_rate_limit h now t)) eqn:Hg;
        [|by rewrite fire_refused].
      pose proof (gate_counter_within N h now t Hl Hpos Hin) as Hin'.
      destruct (fire_accepted_stats h now t ev sinks He Hg) as [_ Hrc].
      intros db e Hdb. rewrite Hrc in Hdb. by apply Hin'. }
    intros h Hin. split; [by apply Hall|].
    intros now c. unfold counter_at.
    destruct (redis_client (fire_all h t ev fires)) as [db|] eqn:Hr; [|done].
    cbn. unfold Redis.get, Redis.find.
    destruct (db !! rate_limit_key t) as [e|] eqn:He; [|done].
    destruct (Redis.live now e); [|done]. cbn. intros [= <-].
    exact (Hall h Hin db e Hr He).
  - intros h0 db now x Hr Hk Hx.
    pose proof (find_live now _ db (N - 1) x Hk Hx) as Hf.
    destruct (gate_below h0 db t N Hr Hl Hpos now (N - 1) x Hk Hx)
      as (db1 & Hg & Hk1); [lia|].
    replace (N - 1 + 1) with N in Hk1 by lia.
    assert (Hget : gate_get h0 now t = Count (rate_limit_key t)).
    { unfold gate_get. rewrite Hl, Hr.
      rewrite (proj2 (Z.eqb_neq N 0)) by lia.
      unfold Redis.get. rewrite Hf. cbn.
      by rewrite (proj2 (Z.leb_gt N (N - 1))) by lia. }
    split; [exact Hget|].
    assert (Hstep : gate_pipeline h0 now (rate_limit_key t) = with_redis h0 db1).
    { pose proof (check_rate_limit_in_steps h0 now t) as Hs.
      rewrite Hget, Hg in Hs. by injection Hs as <-. }
    split.
    + rewrite Hstep. unfold gate_pipeline, counter_at. cbn.
      pose proof (find_live now _ db1 N (now + 60) Hk1) as Hf1.
      unfold Redis.get, Redis.find at 1.
      rewrite (incr_expire_live now _ db1 _ (Hf1 ltac:(lia))).
      unfold Redis.live. cbn.
      by rewrite (proj2 (Z.leb_le now (now + 60))) by lia.
    + rewrite Hg. cbn [snd].
      by rewrite (gate_at_limit (with_redis h0 db1) db1 t N eq_refl Hl Hpos
                    now N (now + 60) Hk1) by lia.
Qed.

Lemma counter_within_limit_unless_interleaved_witness :
  counter_at
    (gate_pipeline
       (gate_pipeline
          (fire_all (initialize __init__ ∅) limited_twice alert_severity_9
             [(0, sinks_up)])
          1 (rate_limit_key limited_twice))
       1 (rate_limit_key limited_twice))
    1 limited_twice = Some 3 /\
  executions
    (stats_of (fire_all (initialize __init__ ∅) limited_twice alert_severity_9
                 [(0, sinks_up); (1, sinks_up); (1, sinks_up)])
       "limited-twice") = 2.
Proof.
  destruct (counter_within_limit_unless_interleaved (initialize __init__ ∅)
              limited_twice alert_severity_9 2 [] eq_refl)
    as (_ & _ & Hrace); [lia | |].
  - intros db e [= <-]. by rewrite lookup_empty.
  - split; [|reflexivity].
    destruct (redis_client
                (fire_all (initialize __init__ ∅) limited_twice
                   alert_severity_9 [(0, sinks_up)])) as [db|] eqn:Hdb;
      [|discriminate Hdb].
    destruct (Hrace _ db 1 60 Hdb) as (_ & Hcount & _); [|lia|exact Hcount].
    vm_compute in Hdb. injection Hdb as <-. reflexivity.
Defined.

(** ** Processing an event *)

Lemma py_in_raises (x c : any) (e : exn) :
  py_in x c = Raise e -> e = TypeError.
Proof. unfold py_in. destruct c, x; intros H; congruence. Qed.

Lemma compare_op_raises (op : ordop) (a b : any) (e : exn) :
  compare_op op a b = Raise e -> e = TypeError.
Proof. unfold compare_op. destruct (py_order op a b); intros H; congruence. Qed.

(** The evaluator raises nothing but [TypeError]. *)
Lemma condition_raises_type_error (c : Condition) (ev : EventPayload) (e : exn) :
  _evaluate_condition c ev = Raise e -> e = TypeError.
Proof.
  unfold _evaluate_condition.
  destruct (operator c); try discriminate;
    try apply compare_op_raises; try apply py_in_raises.
  - destruct (_extract_value (field c) ev); try discriminate.
    apply py_in_raises.
  - unfold py_not_in, bind.
    destruct (py_in (_extract_value (field c) ev) (value c)) eqn:Hin;
      [discriminate|].
    intros [= <-]. by apply (py_in_raises _ _ _ Hin).
Qed.

Lemma conditions_raise_type_error (ev : EventPayload) (cs : list Condition)
  (e : exn) :
  _evaluate_conditions cs ev = Raise e -> e = TypeError.
Proof.
  induction cs as [|c cs IH]; cbn [_evaluate_conditions]; [done|].
  destruct (_evaluate_condition c ev) as [[|]|e'] eqn:Hc; cbn; try done.
  intros [= <-]. by apply (condition_raises_type_error c ev).
Qed.

Lemma matching_raise_type_error (ev : EventPayload)
  (trs : list (string * TriggerConfig)) (e : exn) :
  matching_triggers trs ev = Raise e -> e = TypeError.
Proof.
  induction trs as [|[k cfg] trs IH]; cbn [matching_triggers]; [done|].
  destruct (_evaluate_conditions (conditions cfg) ev) as [b|e'] eqn:Hc; cbn.
  - destruct (matching_triggers trs ev) as [ms|e']; cbn; [done|].
    intros [= <-]. by apply IH.
  - intros [= <-]. by apply (conditions_raise_type_error ev _ _ Hc).
Qed.

Lemma matching_raises (ev : EventPayload) (trs : list (string * TriggerConfig))
  (k : string) (cfg : TriggerConfig) (e : exn) :
  In (k, cfg) trs ->
  _evaluate_conditions (conditions cfg) ev = Raise e ->
  matching_triggers trs ev = Raise TypeError.
Proof.
  intros Hin Hraise.
  induction trs as [|[k0 c0] trs IH]; [destruct Hin|].
  cbn [matching_triggers].
  destruct (_evaluate_conditions (conditions c0) ev) as [b|e'] eqn:Hc; cbn.
  - destruct Hin as [[= -> ->] | Hin]; [congruence|].
    by rewrite (IH Hin).
  - by rewrite (conditions_raise_type_error ev _ _ Hc).
Qed.

Lemma matching_is_filter (ev : EventPayload) :
  forall (trs : list (string * TriggerConfig)) (ms : list TriggerConfig),
    matching_triggers trs ev = Ret ms ->
    ms = List.filter (matches ev) (map snd trs).
Proof.
  induction trs as [|[k cfg] trs IH]; cbn [matching_triggers]; intros ms Hm.
  - by injection Hm as <-.
  - unfold matches at 1. cbn [map snd List.filter].
    destruct (_evaluate_conditions (conditions cfg) ev) as [b|e]; [|done].
    cbn in Hm. destruct (matching_triggers trs ev) as [ms'|e]; [|done].
    cbn in Hm. injection Hm as <-. rewrite (IH ms' eq_refl).
    unfold matches at 2. by destruct b.
Qed.

Lemma matching_total (ev : EventPayload) (trs : list (string * TriggerConfig)) :
  (forall k cfg e, In (k, cfg) trs ->
                    _evaluate_conditions (conditions cfg) ev <> Raise e) ->
  exists ms, matching_triggers trs ev = Ret ms.
Proof.
  induction trs as [|[k cfg] trs IH]; intros Hno; cbn [matching_triggers].
  - by exists [].
  - destruct (_evaluate_conditions (conditions cfg) ev) as [b|e] eqn:Hc;
      [|by destruct (Hno k cfg e (or_introl eq_refl))].
    destruct IH as [ms Hms];
      [intros k' c' e' Hin; apply (Hno k' c' e'); by right|].
    rewrite Hms. cbn. by eexists.
Qed.

Lemma execute_matching_names (w : world) (ev : EventPayload) :
  forall (ms : list TriggerConfig) (h : TriggerHandler) (i : nat),
    map fst (snd (execute_matching h w i ms ev)) = map name ms /\
    triggers (fst (execute_matching h w i ms ev)) = triggers h.
Proof.
  induction ms as [|m ms IH]; intros h i; cbn [execute_matching]; [done|].
  destruct (_execute_trigger h (clock w i) m ev (sink w i)) as [h1 effs1] eqn:E1.
  destruct (IH h1 (S i)) as [IHn IHt].
  destruct (execute_matching h1 w (S i) ms ev) as [h2 tr]. cbn [fst snd] in *.
  split; [cbn; by rewrite IHn|].
  rewrite IHt.
  assert (Hfire : triggers (fst (_execute_trigger h (clock w i) m ev (sink w i)))
                  = triggers h).
  { destruct (enabled m) eqn:He; [|by rewrite fire_disabled].
    destruct (fst (_check_rate_limit h (clock w i) m)) eqn:Hg;
      [|by rewrite fire_refused].
    rewrite (fire_accepted h _ m ev _ He Hg). cbn.
    apply (gate_keeps_stats h (clock w i) m). }
  by rewrite E1 in Hfire.
Qed.

(** One trigger whose conditions raise blocks the event for all: when the
    conditions of any registered trigger raise on the event,
    [process_event] raises [TypeError] before any trigger has run, the
    handler is as it was and nothing has been done, also for the triggers
    that match. In any case [process_event] either returns normally or
    raises [TypeError] with the handler untouched. *)
Theorem raising_trigger_blocks_event (h : TriggerHandler) (w : world)
  (ev : EventPayload) (source : string) :
  (forall k cfg e,
     In (k, cfg) (triggers h) ->
     _evaluate_conditions (conditions cfg) ev = Raise e ->
     process_event h w ev source = (Raise TypeError, h, [])) /\
  (fst (fst (process_event h w ev source)) = Ret tt \/
   process_event h w ev source = (Raise TypeError, h, [])).
Proof.
  unfold process_event. split.
  - intros k cfg e Hin Hraise.
    by rewrite (matching_raises ev _ k cfg e Hin Hraise).
  - destruct (matching_triggers (triggers h) ev) as [ms|e] eqn:Hm.
    + left. by destruct (execute_matching h w 0 ms ev).
    + right. by rewrite (matching_raise_type_error ev _ _ Hm).
Qed.

Lemma raising_trigger_blocks_event_witness :
  matches alert_without_severity user_welcome = false /\
  process_event
    (add_trigger (initialize __init__ ∅) "mail-ops" mail_trigger)
    calm_world alert_without_severity "generic"
  = (Raise TypeError,
     add_trigger (initialize __init__ ∅) "mail-ops" mail_trigger, []).
Proof.
  split; [reflexivity|].
  destruct (raising_trigger_blocks_event
              (add_trigger (initialize __init__ ∅) "mail-ops" mail_trigger)
              calm_world alert_without_severity "generic") as [Hblock _].
  apply (Hblock "critical-alert" critical_alert TypeError);
    [cbn; tauto | reflexivity].
Defined.

(** When Redis answers, the fire with failures is the one without. *)
Lemma execute_trigger_with_answers (h : TriggerHandler) (now : Z)
  (t : TriggerConfig) (ev : EventPayload) (sinks : nat -> Z -> option exn) :
  _execute_trigger_with Answers h now t ev sinks
    = (Ret tt, fst (_execute_trigger h now t ev sinks),
       snd (_execute_trigger h now t ev sinks)).
Proof.
  unfold _execute_trigger_with, _execute_trigger. rewrite check_with_answers.
  destruct (enabled t); [|done]. cbn [negb].
  destruct (_check_rate_limit h now t) as [[|] h1]; done.
Qed.

Lemma execute_matching_with_answers (w : world) (redis : nat -> redis_run)
  (ev : EventPayload) :
  (forall i, redis i = Answers) ->
  forall (ms : list TriggerConfig) (h : TriggerHandler) (i : nat),
    execute_matching_with h w redis i ms ev
      = (Ret tt, fst (execute_matching h w i ms ev),
         snd (execute_matching h w i ms ev)).
Proof.
  intros Hup. induction ms as [|m ms IH]; intros h i;
    cbn [execute_matching_with execute_matching]; [done|].
  rewrite Hup, execute_trigger_with_answers.
  destruct (_execute_trigger h (clock w i) m ev (sink w i)) as [h1 effs].
  cbn [fst snd]. rewrite IH.
  by destruct (execute_matching h1 w (S i) ms ev).
Qed.

(** The loop runs the triggers in order and stops only at an exception. *)
Lemma execute_matching_with_prefix (w : world) (redis : nat -> redis_run)
  (ev : EventPayload) :
  forall (ms : list TriggerConfig) (h : TriggerHandler) (i : nat),
    exists rest,
      map name ms
        = map fst (snd (execute_matching_with h w redis i ms ev)) ++ rest /\
      (fst (fst (execute_matching_with h w redis i ms ev)) = Ret tt ->
       rest = []).
Proof.
  induction ms as [|m ms IH]; intros h i; cbn [execute_matching_with].
  - by exists [].
  - destruct (_execute_trigger_with (redis i) h (clock w i) m ev (sink w i))
      as [[[u|e] h1] effs].
    + destruct (IH h1 (S i)) as (rest & Hnames & Hdone).
      destruct (execute_matching_with h1 w redis (S i) ms ev) as [[r h2] tr].
      cbn [fst snd] in *. exists rest.
      split; [cbn; by rewrite Hnames | exact Hdone].
    + exists (map name ms). cbn. split; [done | discriminate].
Qed.

(** No skipping and no reordering: when no trigger's conditions raise,
    [process_event] calls [_execute_trigger] for the triggers whose
    conditions are all true, in the order of the registry, and stops early
    only if a Redis round trip of a gate raises: the triggers run are then
    those up to the one whose gate raised, and the exception leaves
    [process_event]. It returns normally only after all of them have been
    run. When Redis answers every time, the run is [process_event] as
    given without failures: it returns normally and has run them all. *)
Theorem process_event_runs_all_matching (h : TriggerHandler) (w : world)
  (redis : nat -> redis_run) (ev : EventPayload) (source : string) :
  (forall k cfg e, In (k, cfg) (triggers h) ->
                    _evaluate_conditions (conditions cfg) ev <> Raise e) ->
  (exists rest,
     map name (List.filter (matches ev) (map snd (triggers h)))
       = map fst (snd (process_event_with h w redis ev source)) ++ rest /\
     (fst (fst (process_event_with h w redis ev source)) = Ret tt ->
      rest = [])) /\
  ((forall i, redis i = Answers) ->
   process_event_with h w redis ev source = process_event h w ev source /\
   fst (fst (process_event h w ev source)) = Ret tt /\
   map fst (snd (process_event h w ev source))
     = map name (List.filter (matches ev) (map snd (triggers h)))).
Proof.
  intros Hno. unfold process_event_with, process_event.
  destruct (matching_total ev _ Hno) as [ms Hms]. rewrite Hms.
  rewrite <- (matching_is_filter ev _ _ Hms). split.
  - apply execute_matching_with_prefix.
  - intros Hup. rewrite (execute_matching_with_answers w redis ev Hup).
    destruct (execute_matching_names w ev ms h 0%nat) as [Hn _].
    destruct (execute_matching h w 0 ms ev) as [h' tr]. cbn [fst snd] in *.
    by rewrite Hn.
Qed.

Lemma process_event_runs_all_matching_witness :
  map fst
    (snd (process_event
            (add_trigger (initialize __init__ ∅) "mail-ops" mail_trigger)
            calm_world alert_severity_9 "generic"))
  = ["critical-alert"; "mail-ops"] /\
  process_event_with
    (add_trigger (initialize __init__ ∅) "mail-ops" mail_trigger)
    calm_world redis_down alert_severity_9 "generic"
  = (Raise (SinkError "redis connection lost"),
     add_trigger (initialize __init__ ∅) "mail-ops" mail_trigger,
     [("critical-alert", [])]).
Proof.
  split; [|reflexivity].
  destruct (process_event_runs_all_matching
              (add_trigger (initialize __init__ ∅) "mail-ops" mail_trigger)
              calm_world (fun _ => Answers) alert_severity_9 "generic")
    as [_ Hup].
  - intros k cfg e Hin.
    cbn in Hin.
    destruct Hin as [[= _ <-] | [[= _ <-] | [[= _ <-] | [[= _ <-] | [[= _ <-] | []]]]]];
      discriminate.
  - by destruct (Hup (fun _ => eq_refl)) as (_ & _ & Hn).
Defined.

(** ** Statistics *)

Lemma stats_le_refl (s : stats) : stats_le s s.
Proof. unfold stats_le. lia. Qed.

Lemma stats_le_trans (a b c : stats) : stats_le a b -> stats_le b c -> stats_le a c.
Proof. unfold stats_le. lia. Qed.

Lemma fire_stats_le (h : TriggerHandler) (now : Z) (t : TriggerConfig)
  (ev : EventPayload) (sinks : nat -> Z -> option exn) (n : string) :
  stats_le (stats_of h n) (stats_of (fst (_execute_trigger h now t ev sinks)) n).
Proof.
  destruct (enabled t) eqn:He; [|rewrite fire_disabled by done; apply stats_le_refl].
  destruct (fst (_check_rate_limit h now t)) eqn:Hg;
    [|rewrite fire_refused by done; apply stats_le_refl].
  destruct (String.eqb n (name t)) eqn:En.
  - apply String.eqb_eq in En. subst n.
    destruct (fire_accepted_stats h now t ev sinks He Hg) as [-> _].
    pose proof (count_successes_bounds (outcomes t ev sinks)).
    unfold stats_le, bump. cbn. lia.
  - assert (Hne : n <> name t) by (intros ->; by rewrite String.eqb_refl in En).
    unfold stats_of. rewrite (fire_other_stats h now t ev sinks n Hne).
    apply stats_le_refl.
Qed.

Lemma execute_matching_stats_le (w : world) (ev : EventPayload) (n : string) :
  forall (ms : list TriggerConfig) (h : TriggerHandler) (i : nat),
    stats_le (stats_of h n) (stats_of (fst (execute_matching h w i ms ev)) n).
Proof.
  induction ms as [|m ms IH]; intros h i; cbn [execute_matching];
    [apply stats_le_refl|].
  pose proof (fire_stats_le h (clock w i) m ev (sink w i) n) as Hfire.
  destruct (_execute_trigger h (clock w i) m ev (sink w i)) as [h1 effs1].
  specialize (IH h1 (S i)).
  destruct (execute_matching h1 w (S i) ms ev) as [h2 tr]. cbn [fst] in *.
  exact (stats_le_trans _ _ _ Hfire IH).
Qed.

Lemma execute_matching_other_names (w : world) (ev : EventPayload) (n : string) :
  forall (ms : list TriggerConfig) (h : TriggerHandler) (i : nat),
    (forall m, In m ms -> name m <> n) ->
    trigger_stats (fst (execute_matching h w i ms ev)) !! n
      = trigger_stats h !! n.
Proof.
  induction ms as [|m ms IH]; intros h i Hn; cbn [execute_matching]; [done|].
  pose proof (fire_other_stats h (clock w i) m ev (sink w i) n) as Hfire.
  destruct (_execute_trigger h (clock w i) m ev (sink w i)) as [h1 effs1].
  specialize (IH h1 (S i)).
  destruct (execute_matching h1 w (S i) ms ev) as [h2 tr]. cbn [fst] in *.
  rewrite IH by (intros m' Hm'; apply Hn; by right).
  apply Hfire. intros ->. by apply (Hn m (or_introl eq_refl)).
Qed.

(** The counters only grow: under every name, [executions], [successes]
    and [failures] after [process_event] are at least what they were
    before. *)
Theorem stats_never_decrease (h : TriggerHandler) (w : world)
  (ev : EventPayload) (source : string) (n : string) :
  stats_le (stats_of h n) (stats_of (snd (fst (process_event h w ev source))) n).
Proof.
  unfold process_event.
  destruct (matching_triggers (triggers h) ev) as [ms|e];
    [|apply stats_le_refl].
  pose proof (execute_matching_stats_le w ev n ms h 0%nat) as Hle.
  by destruct (execute_matching h w 0 ms ev).
Qed.

(** [process_event] never changes the registry, and it leaves alone the
    statistics under every name that no matching trigger bears. *)
Theorem process_event_keeps_registry (h : TriggerHandler) (w : world)
  (ev : EventPayload) (source : string) :
  triggers (snd (fst (process_event h w ev source))) = triggers h /\
  (forall n,
     (forall k cfg, In (k, cfg) (triggers h) -> name cfg = n ->
                    matches ev cfg = false) ->
     trigger_stats (snd (fst (process_event h w ev source))) !! n
       = trigger_stats h !! n).
Proof.
  unfold process_event.
  destruct (matching_triggers (triggers h) ev) as [ms|e] eqn:Hm; [|done].
  destruct (execute_matching_names w ev ms h 0%nat) as [_ Ht].
  pose proof (execute_matching_other_names w ev) as Hother.
  destruct (execute_matching h w 0 ms ev) as [h' tr] eqn:Hx. cbn [fst snd] in *.
  split; [exact Ht|].
  intros n Hn. specialize (Hother n ms h 0%nat). rewrite Hx in Hother.
  apply Hother. intros m Hin Hname.
  destruct (matching_in_registry ev _ _ Hm m Hin) as [k Hk].
  pose proof (Hn k m Hk Hname) as Hfalse.
  rewrite (matching_is_filter ev _ _ Hm) in Hin.
  apply List.filter_In in Hin as [_ Htrue]. congruence.
Qed.

Lemma process_event_keeps_registry_witness :
  trigger_stats
    (snd (fst (process_event (initialize __init__ ∅) calm_world
                 alert_severity_9 "generic"))) !! "user-welcome" = None.
Proof.
  destruct (process_event_keeps_registry (initialize __init__ ∅) calm_world
              alert_severity_9 "generic") as [_ Hother].
  rewrite (Hother "user-welcome"); [reflexivity|].
  intros k cfg Hin Hname. cbn in Hin.
  destruct Hin as [[= _ <-] | [[= _ <-] | [[= _ <-] | [[= _ <-] | []]]]];
    try discriminate; reflexivity.
Defined.

(** The statistics account for every action of every executed fire: for a
    trigger with [k] actions, if [successes + failures = k * executions]
    holds under its name (as it does before its first fire), it holds after
    any fires of it, executed, refused or disabled. *)
Theorem stats_account_for_every_action (h : TriggerHandler) (t : TriggerConfig)
  (ev : EventPayload) (fires : list (Z * (nat -> Z -> option exn))) :
  successes (stats_of h (name t)) + failures (stats_of h (name t))
    = Z.of_nat (length (actions t)) * executions (stats_of h (name t)) ->
  successes (stats_of (fire_all h t ev fires) (name t))
    + failures (stats_of (fire_all h t ev fires) (name t))
    = Z.of_nat (length (actions t))
      * executions (stats_of (fire_all h t ev fires) (name t)).
Proof.
  revert h. induction fires as [|[now sinks] fires IH]; intros h Hinv; [exact Hinv|].
  cbn [fire_all]. apply IH.
  destruct (enabled t) eqn:He; [|by rewrite fire_disabled].
  destruct (fst (_check_rate_limit h now t)) eqn:Hg; [|by rewrite fire_refused].
  destruct (fire_accepted_stats h now t ev sinks He Hg) as [-> _].
  rewrite <- (outcomes_length t ev sinks) in *. unfold bump. cbn. lia.
Qed.

Lemma stats_account_for_every_action_witness :
  successes
    (stats_of (fire_all __init__ user_welcome alert_severity_9
                 [(0, sinks_up); (5, fun _ => sink_down)]) "user-welcome")
  + failures
      (stats_of (fire_all __init__ user_welcome alert_severity_9
                   [(0, sinks_up); (5, fun _ => sink_down)]) "user-welcome")
  = 2 * executions
          (stats_of (fire_all __init__ user_welcome alert_severity_9
                       [(0, sinks_up); (5, fun _ => sink_down)]) "user-welcome").
Proof.
  apply (stats_account_for_every_action __init__ user_welcome alert_severity_9
           [(0, sinks_up); (5, fun _ => sink_down)]).
  reflexivity.
Defined.

(** ** Registry operations *)

Lemma set_set {V} (k : string) (v1 v2 : V) (d : list (string * V)) :
  PyDict.set k v2 (PyDict.set k v1 d) = PyDict.set k v2 d.
Proof.
  induction d as [|[k' v'] d IH]; cbn.
  - by rewrite String.eqb_refl.
  - destruct (String.eqb k k') eqn:E; cbn; rewrite E; [done | by rewrite IH].
Qed.

Lemma mem_del_same (trs : list (string * TriggerConfig)) (k : string) :
  registry_ok trs = true -> PyDict.mem k (PyDict.del k trs) = false.
Proof.
  induction trs as [|[k0 c0] trs IH]; cbn; [done|].
  intros Hok.
  apply andb_true_iff in Hok as [Hok Hrest].
  apply andb_true_iff in Hok as [_ Hfresh]. apply negb_true_iff in Hfresh.
  destruct (String.eqb k k0) eqn:E.
  - apply String.eqb_eq in E. by subst k0.
  - unfold PyDict.mem in *. cbn. rewrite E. by apply IH.
Qed.

Lemma registry_keys_nodup (trs : list (string * TriggerConfig)) :
  registry_ok trs = true -> List.NoDup (PyDict.keys trs).
Proof.
  induction trs as [|[k0 c0] trs IH]; cbn; [constructor|].
  intros Hok.
  apply andb_true_iff in Hok as [Hok Hrest].
  apply andb_true_iff in Hok as [_ Hfresh]. apply negb_true_iff in Hfresh.
  constructor; [|by apply IH].
  intros Hin. apply List.in_map_iff in Hin as [[k c] [Hk Hin]]. cbn in Hk. subst k.
  destruct (registry_entry _ _ _ Hrest Hin) as [_ Hget].
  unfold PyDict.mem in Hfresh. by rewrite Hget in Hfresh.
Qed.

(** Insert then look up: after [add_trigger] the registry holds the given
    configuration under the route's name, with that name; every other entry
    is what it was; a name already registered keeps its place in the
    listing, a new one goes last; statistics and Redis are not touched. *)
Theorem add_trigger_then_lookup (h : TriggerHandler) (trigger_name : string)
  (cfg : TriggerConfig) :
  PyDict.get trigger_name (triggers (add_trigger h trigger_name cfg))
    = Some (renamed trigger_name cfg) /\
  (forall k, k <> trigger_name ->
     PyDict.get k (triggers (add_trigger h trigger_name cfg))
       = PyDict.get k (triggers h)) /\
  fst (list_triggers (add_trigger h trigger_name cfg))
    = (if PyDict.mem trigger_name (triggers h)
       then fst (list_triggers h)
       else fst (list_triggers h) ++ [trigger_name]) /\
  trigger_stats (add_trigger h trigger_name cfg) = trigger_stats h /\
  redis_client (add_trigger h trigger_name cfg) = redis_client h.
Proof.
  unfold add_trigger, list_triggers. cbn. repeat apply conj; try reflexivity.
  - apply get_set_same.
  - intros k Hk. apply get_set_other. congruence.
  - apply keys_set.
Qed.

Lemma add_trigger_then_lookup_witness :
  PyDict.get "critical-alert"
    (triggers (add_trigger __init__ "mail-ops" mail_trigger))
    = Some critical_alert.
Proof.
  destruct (add_trigger_then_lookup __init__ "mail-ops" mail_trigger)
    as (_ & Hother & _).
  rewrite (Hother "critical-alert"); [reflexivity | discriminate].
Defined.

(** Registering a name twice keeps one entry with the latest definition:
    the registry after the two calls is the registry after the second call
    alone, and in a well-formed registry the name is listed exactly once. *)
Theorem add_trigger_twice (h : TriggerHandler) (trigger_name : string)
  (cfg1 cfg2 : TriggerConfig) :
  triggers (add_trigger (add_trigger h trigger_name cfg1) trigger_name cfg2)
    = triggers (add_trigger h trigger_name cfg2) /\
  (registry_ok (triggers h) = true ->
   count_occ string_dec
     (fst (list_triggers
             (add_trigger (add_trigger h trigger_name cfg1) trigger_name cfg2)))
     trigger_name = 1%nat).
Proof.
  assert (Heq : triggers (add_trigger (add_trigger h trigger_name cfg1)
                            trigger_name cfg2)
                = triggers (add_trigger h trigger_name cfg2))
    by (unfold add_trigger; cbn; apply set_set).
  split; [exact Heq|].
  intros Hok. unfold list_triggers. cbn [fst]. rewrite Heq.
  pose proof (registry_keys_nodup _ (registry_ok_add h trigger_name cfg2 Hok))
    as Hnd.
  apply (proj1 (List.NoDup_count_occ' string_dec _) Hnd).
  apply List.in_map_iff. exists (trigger_name, renamed trigger_name cfg2).
  split; [done|]. apply get_in.
  unfold add_trigger. cbn. apply get_set_same.
Qed.

Lemma add_trigger_twice_witness :
  count_occ string_dec
    (fst (list_triggers
            (add_trigger (add_trigger __init__ "x" mail_trigger) "x"
               limited_once)))
    "x" = 1%nat.
Proof.
  apply (add_trigger_twice __init__ "x" mail_trigger limited_once).
  reflexivity.
Defined.

(** [remove_trigger] answers 404 exactly for a name that is not registered
    and then does nothing. Otherwise, in a well-formed registry, the name is
    gone, every other entry is what it was, and the statistics, those of
    the removed trigger included, stay. *)
Theorem remove_trigger_spec (h : TriggerHandler) (trigger_name : string) :
  (remove_trigger h trigger_name = None <->
   PyDict.get trigger_name (triggers h) = None) /\
  (forall h', remove_trigger h trigger_name = Some h' ->
     (registry_ok (triggers h) = true ->
      PyDict.get trigger_name (triggers h') = None) /\
     (forall k, k <> trigger_name ->
        PyDict.get k (triggers h') = PyDict.get k (triggers h)) /\
     trigger_stats h' = trigger_stats h /\
     redis_client h' = redis_client h).
Proof.
  unfold remove_trigger, PyDict.mem. split.
  - destruct (PyDict.get trigger_name (triggers h)); split; done.
  - intros h'. destruct (PyDict.get trigger_name (triggers h)) eqn:Hg; [|done].
    intros [= <-]. cbn. repeat apply conj; try reflexivity.
    + intros Hok. pose proof (mem_del_same _ trigger_name Hok) as Hm.
      unfold PyDict.mem in Hm.
      by destruct (PyDict.get trigger_name (PyDict.del trigger_name (triggers h))).
    + intros k Hk. apply get_del_other. congruence.
Qed.

Lemma remove_trigger_spec_witness :
  remove_trigger __init__ "no-such-trigger" = None /\
  match remove_trigger __init__ "user-welcome" with
  | Some h' => PyDict.get "user-welcome" (triggers h') = None
  | None => False
  end.
Proof.
  destruct (remove_trigger_spec __init__ "no-such-trigger") as [Hnone _].
  split; [by apply Hnone|].
  destruct (remove_trigger_spec __init__ "user-welcome") as [Hnone' Hsome].
  destruct (remove_trigger __init__ "user-welcome") as [h'|] eqn:Hrem.
  - destruct (Hsome h' eq_refl) as [Hgone _]. by apply Hgone.
  - destruct Hnone' as [Habsent _]. specialize (Habsent eq_refl).
    discriminate Habsent.
Defined.

(** The registry stays well formed: starting from the default triggers,
    after any sequence of [add_trigger] and [remove_trigger] calls every
    trigger is stored under its own name and no name is listed twice. *)
Theorem registry_stays_well_formed (ops : list admin_op) :
  registry_ok (triggers (run_admin_ops __init__ ops)) = true /\
  List.NoDup (fst (list_triggers (run_admin_ops __init__ ops))) /\
  (forall k cfg, In (k, cfg) (triggers (run_admin_ops __init__ ops)) ->
                 name cfg = k).
Proof.
  assert (Hok : forall h, registry_ok (triggers h) = true ->
                          registry_ok (triggers (run_admin_ops h ops)) = true).
  { unfold run_admin_ops. induction ops as [|op ops IH]; intros h Hh; [exact Hh|].
    cbn [fold_left]. apply IH. destruct op as [n cfg | n]; cbn [run_admin_op].
    - by apply registry_ok_add.
    - destruct (remove_trigger h n) as [h'|] eqn:Hr; [|exact Hh].
      by apply (registry_ok_remove h h' n). }
  specialize (Hok __init__ registry_ok_init).
  split; [exact Hok|]. split.
  - by apply registry_keys_nodup.
  - intros k cfg Hin. by destruct (registry_entry _ _ _ Hok Hin).
Qed.

(** ** Configuration parser *)

(** The two enumerations are read by value: every member is found from its
    value, and only the member's own value, a string, is accepted for it. *)
Theorem enumerations_by_value :
  (forall op, ConditionOperator_of (VStr (operator_value op)) = Parsed op) /\
  (forall v op, ConditionOperator_of v = Parsed op ->
                v = VStr (operator_value op)) /\
  (forall ty, ActionType_of (VStr (action_type_value ty)) = Parsed ty) /\
  (forall v ty, ActionType_of v = Parsed ty ->
                v = VStr (action_type_value ty)).
Proof.
  repeat apply conj.
  - by intros [].
  - intros v op. destruct v; try discriminate. unfold ConditionOperator_of.
    destruct (List.find _ _) as [op'|] eqn:Hf; [|discriminate].
    intros [= ->]. apply List.find_some in Hf as [_ Heq].
    apply String.eqb_eq in Heq. by subst.
  - by intros [].
  - intros v ty. destruct v; try discriminate. unfold ActionType_of.
    destruct (List.find _ _) as [ty'|] eqn:Hf; [|discriminate].
    intros [= ->]. apply List.find_some in Hf as [_ Heq].
    apply String.eqb_eq in Heq. by subst.
Qed.

Lemma enumerations_by_value_witness :
  ConditionOperator_of (VStr "EQ") <> Parsed EQ /\
  ActionType_of (VStr "webhook") = Parsed WEBHOOK.
Proof.
  destruct enumerations_by_value as (_ & Honly & Hty & _).
  split; [|exact (Hty WEBHOOK)].
  intros H. apply Honly in H. discriminate.
Defined.

(** A configuration without ["name"] is always refused, although the route
    stores the trigger under the name of the URL: the parser raises, the
    route answers 400, and when the configuration has no conditions and no
    actions either, the exception is the [KeyError] for ["name"]. *)
Theorem config_without_name_is_refused (config : list (string * any)) :
  PyDict.get "name" config = None ->
  (exists e,
     _parse_trigger_config config = Invalid e /\
     forall h trigger_name,
       add_trigger_request h trigger_name config = Some (BadRequest e)) /\
  (PyDict.get "conditions" config = None ->
   PyDict.get "actions" config = None ->
   _parse_trigger_config config = Invalid (KeyError "name")).
Proof.
  intros Hname. split.
  - assert (Hp : exists e, _parse_trigger_config config = Invalid e).
    { unfold _parse_trigger_config, parsed_bind, subscript. rewrite Hname.
      destruct (py_iter _) as [cs|e]; [|by eexists].
      destruct (parse_each parse_condition cs) as [conds|e]; [|by eexists].
      destruct (py_iter _) as [acts|e]; [|by eexists].
      destruct (parse_each parse_action acts) as [actions|e]; by eexists. }
    destruct Hp as [e He]. exists e. split; [exact He|].
    intros h n. unfold add_trigger_request. by rewrite He.
  - intros Hc Ha. unfold _parse_trigger_config, get_default, subscript.
    by rewrite Hc, Ha, Hname.
Qed.

Lemma config_without_name_is_refused_witness :
  add_trigger_request __init__ "x" [("enabled", VBool true)]
    = Some (BadRequest (KeyError "name")).
Proof.
  destruct (config_without_name_is_refused [("enabled", VBool true)] eq_refl)
    as [(e & He & Hroute) Hkey].
  rewrite (Hroute __init__ "x"). f_equal. f_equal.
  rewrite (Hkey eq_refl eq_refl) in He. by injection He.
Defined.

Lemma parse_each_first_error {A} (f : any -> parsed A) (pre post : list any)
  (x : any) (e : config_error) :
  Forall (fun y => exists a, f y = Parsed a) pre ->
  f x = Invalid e ->
  parse_each f (pre ++ x :: post) = Invalid e.
Proof.
  induction 1 as [|y pre [a Hy] _ IH]; intros Hx; cbn [app parse_each].
  - by rewrite Hx.
  - rewrite Hy. cbn. by rewrite (IH Hx).
Qed.

(** One bad condition refuses the whole configuration: when the first
    condition that does not parse raises [e] (a missing ["field"],
    ["operator"] or ["value"], an operator that is no member of the
    enumeration, an entry that is not an object), the parser raises [e]
    whatever the actions and the name are, and the route answers 400. *)
Theorem bad_condition_refuses_config (config : list (string * any))
  (pre post : list any) (c : any) (e : config_error) :
  PyDict.get "conditions" config = Some (VList (pre ++ c :: post)) ->
  Forall (fun y => exists a, parse_condition y = Parsed a) pre ->
  parse_condition c = Invalid e ->
  _parse_trigger_config config = Invalid e /\
  (forall h trigger_name,
     add_trigger_request h trigger_name config = Some (BadRequest e)).
Proof.
  intros Hc Hpre Hbad.
  assert (Hp : _parse_trigger_config config = Invalid e).
  { unfold _parse_trigger_config, get_default. rewrite Hc. cbn.
    by rewrite (parse_each_first_error _ pre post c e Hpre Hbad). }
  split; [exact Hp|]. intros h n. unfold add_trigger_request. by rewrite Hp.
Qed.

Lemma bad_condition_refuses_config_witness :
  add_trigger_request __init__ "x"
    [ ("name", VStr "x");
      ("conditions",
       VList ([condition_config (mk_condition "source" EQ (VStr "github"))]
                ++ VDict [("field", VStr "source");
                          ("operator", VStr "matches");
                          ("value", VStr "git.*")] :: [])) ]
  = Some (BadRequest ValueError).
Proof.
  eapply bad_condition_refuses_config; [reflexivity | | reflexivity].
  constructor; [by eexists | constructor].
Defined.

Lemma operator_of_value (op : ConditionOperator) :
  ConditionOperator_of (VStr (operator_value op)) = Parsed op.
Proof. by destruct op. Qed.

Lemma action_type_of_value (ty : ActionType) :
  ActionType_of (VStr (action_type_value ty)) = Parsed ty.
Proof. by destruct ty. Qed.

Lemma str_items_of_strings (d : list (string * string)) :
  str_items (map (fun kv => (fst kv, VStr (snd kv))) d) = Some d.
Proof.
  induction d as [|[k s] d IH]; [done|]. cbn. by rewrite IH.
Qed.

Lemma parse_written_condition (c : Condition) :
  parse_condition (condition_config c)
    = Parsed {| raw_field := VStr (field c); raw_operator := operator c;
                raw_value := value c |}.
Proof. destruct c as [f op v]. by destruct op. Qed.

Lemma parse_written_action (a : Action) :
  parse_action (action_config a)
    = Parsed {| raw_type := type a; raw_target := VStr (target a);
                raw_payload := VDict (payload a);
                raw_timeout := VFloat (timeout a);
                raw_retries := VInt (retries a);
                raw_headers := str_dict (headers a) |}.
Proof. destruct a as [ty tgt pl tmo r hd]. by destruct ty. Qed.

Lemma parse_written_conditions (cs : list Condition) :
  exists raws,
    parse_each parse_condition (map condition_config cs) = Parsed raws /\
    mapM conform_condition raws = Some cs.
Proof.
  induction cs as [|c cs (raws & Hp & Hc)]; [by exists []|].
  eexists. cbn [map parse_each].
  rewrite parse_written_condition, Hp. cbn [parsed_bind].
  split; [reflexivity|]. cbn. rewrite Hc. by destruct c.
Qed.

Lemma parse_written_actions (acts : list Action) :
  exists raws,
    parse_each parse_action (map action_config acts) = Parsed raws /\
    mapM conform_action raws = Some acts.
Proof.
  induction acts as [|a acts (raws & Hp & Hc)]; [by exists []|].
  eexists. cbn [map parse_each].
  rewrite parse_written_action, Hp. cbn [parsed_bind].
  split; [reflexivity|]. cbn. unfold str_dict.
  rewrite str_items_of_strings. cbn. rewrite Hc. by destruct a.
Qed.

(** The parser reads every field from its key: the configuration that
    spells out the fields of a trigger parses to that trigger, and the
    route registers it under the name of the URL, whatever name the
    configuration gives. *)
Theorem route_registers_written_trigger (h : TriggerHandler)
  (trigger_name : string) (t : TriggerConfig) :
  (exists raw, _parse_trigger_config (trigger_config_of t) = Parsed raw /\
               conform raw = Some t) /\
  add_trigger_request h trigger_name (trigger_config_of t)
    = Some (Created (add_trigger h trigger_name t)) /\
  PyDict.get trigger_name (triggers (add_trigger h trigger_name t))
    = Some (renamed trigger_name t).
Proof.
  destruct (parse_written_conditions (conditions t)) as (rcs & Hpc & Hcc).
  destruct (parse_written_actions (actions t)) as (ras & Hpa & Hca).
  assert (Hp : exists raw, _parse_trigger_config (trigger_config_of t) = Parsed raw
                           /\ conform raw = Some t).
  { eexists. unfold _parse_trigger_config, trigger_config_of. cbn.
    rewrite Hpc. cbn. rewrite Hpa. cbn. split; [reflexivity|].
    unfold conform. cbn. rewrite Hcc. cbn. rewrite Hca. cbn.
    rewrite str_items_of_strings. cbn.
    destruct t as [n cs acts en md [rl|] [cd|]]; reflexivity. }
  split; [exact Hp|]. split.
  - destruct Hp as (raw & Hraw & Hconf).
    unfold add_trigger_request. by rewrite Hraw, Hconf.
  - unfold add_trigger. cbn. apply get_set_same.
Qed.

Lemma route_registers_written_trigger_witness :
  add_trigger_request __init__ "pager" (trigger_config_of critical_alert)
    = Some (Created (add_trigger __init__ "pager" critical_alert)).
Proof.
  apply (route_registers_written_trigger __init__ "pager" critical_alert).
Defined.

(** The defaults of the parser. A configuration with a name and none of
    the other keys registers an enabled trigger without conditions, actions
    or limits; such a trigger matches every event, and a fire of it sends
    nothing. An action given by its type and target alone gets the timeout
    30, 3 retries, an empty payload and no headers. *)
Theorem parser_defaults (config : list (string * any)) (x : string) :
  PyDict.get "name" config = Some (VStr x) ->
  PyDict.get "conditions" config = None ->
  PyDict.get "actions" config = None ->
  PyDict.get "enabled" config = None ->
  PyDict.get "metadata" config = None ->
  PyDict.get "rate_limit" config = None ->
  PyDict.get "cooldown" config = None ->
  (forall h trigger_name,
     add_trigger_request h trigger_name config
       = Some (Created (add_trigger h trigger_name (bare_trigger x)))) /\
  (forall ev trigger_name, matches ev (renamed trigger_name (bare_trigger x)) = true) /\
  (forall h now ev sinks trigger_name,
     sends (snd (_execute_trigger h now (renamed trigger_name (bare_trigger x))
                   ev sinks)) = []) /\
  (forall ty tgt,
     exists raw,
       parse_action (VDict [("type", VStr (action_type_value ty));
                            ("target", VStr tgt)]) = Parsed raw /\
       conform_action raw = Some (mk_action ty tgt [] [])).
Proof.
  intros Hn Hc Ha He Hm Hr Hd. repeat apply conj.
  - intros h n. unfold add_trigger_request, _parse_trigger_config, get_default,
      get_or_none, subscript.
    by rewrite Hn, Hc, Ha, He, Hm, Hr, Hd.
  - done.
  - intros h now ev sinks n. unfold _execute_trigger. cbn.
    by destruct (redis_client h).
  - intros ty tgt. destruct ty; eexists; split; reflexivity.
Qed.

Lemma parser_defaults_witness :
  add_trigger_request __init__ "audit" [("name", VStr "ignored")]
    = Some (Created (add_trigger __init__ "audit" (bare_trigger "ignored"))).
Proof.
  by apply (parser_defaults [("name", VStr "ignored")] "ignored").
Defined.

(** ** Edge values of [rate_limit] and [retries] *)

(** A [rate_limit] of [None] or 0 is no limit: the gate passes and leaves
    the handler, Redis included, as it was. A negative [rate_limit], with a
    Redis client, lets one fire through when the counter does not exist and
    refuses every fire during the 60 seconds that follow. *)
Theorem rate_limit_edge_values (h : TriggerHandler) (now : Z) (t : TriggerConfig) :
  (rate_limit t = None \/ rate_limit t = Some 0 ->
   _check_rate_limit h now t = (true, h)) /\
  (forall db N,
     redis_client h = Some db ->
     rate_limit t = Some N ->
     N < 0 ->
     Redis.get now (rate_limit_key t) db = None ->
     fst (_check_rate_limit h now t) = true /\
     (forall now', now <= now' < now + 60 ->
        _check_rate_limit (snd (_check_rate_limit h now t)) now' t
          = (false, snd (_check_rate_limit h now t)))).
Proof.
  split.
  - unfold _check_rate_limit. intros [-> | ->]; [done|].
    by destruct (redis_client h).
  - intros db N Hr Hl HN Hfresh.
    pose proof (incr_expire_fresh now _ db (get_none_find _ _ _ Hfresh)) as Hk.
    unfold _check_rate_limit at 1 3 4. rewrite Hr, Hl, Hfresh.
    rewrite (proj2 (Z.eqb_neq N 0)) by lia. cbn [fst snd].
    split; [done|]. intros now' Hnow.
    unfold _check_rate_limit. rewrite Hl. cbn [redis_client with_redis].
    rewrite (proj2 (Z.eqb_neq N 0)) by lia.
    unfold Redis.get. rewrite (find_live now' _ _ 1 (now + 60) Hk) by lia.
    cbn. by rewrite (proj2 (Z.leb_le N 1)) by lia.
Qed.

Lemma rate_limit_edge_values_witness :
  _check_rate_limit (initialize __init__ ∅) 0 limited_zero
    = (true, initialize __init__ ∅).
Proof.
  apply (rate_limit_edge_values (initialize __init__ ∅) 0 limited_zero).
  by right.
Defined.

(** With negative [retries] the loop has no iteration: the action is never
    attempted, nothing is logged, the run returns normally, and a fire
    records it as a success. *)
Theorem negative_retries_skip_action (a : Action) (ev : EventPayload)
  (sink : Z -> option exn) :
  retries a < 0 ->
  _execute_action a ev sink = (Ret tt, []) /\
  (forall t sinks i, actions t !! i = Some a ->
     outcomes t ev sinks !! i = Some (Ret tt)).
Proof.
  intros Hneg.
  assert (Hrun : forall s, _execute_action a ev s = (Ret tt, []))
    by (intros s; unfold _execute_action;
        by replace (Z.to_nat (retries a + 1)) with O by lia).
  split; [apply Hrun|].
  intros t sinks i Ha.
  destruct (outcomes_lookup t ev sinks i a Ha) as [-> _]. by rewrite Hrun.
Qed.

Lemma negative_retries_skip_action_witness :
  _execute_action
    {| type := HTTP; target := "https://api.example.com/welcome";
       payload := []; timeout := 30; retries := -1; headers := [] |}
    alert_severity_9 sink_down = (Ret tt, []).
Proof.
  apply (negative_retries_skip_action
           {| type := HTTP; target := "https://api.example.com/welcome";
              payload := []; timeout := 30; retries := -1; headers := [] |}
           alert_severity_9 sink_down).
  cbn. lia.
Defined.

Lemma registry_stays_well_formed_witness :
  registry_ok
    (triggers (run_admin_ops __init__
                 [AddTrigger "mail-ops" mail_trigger;
                  RemoveTrigger "user-welcome";
                  AddTrigger "mail-ops" limited_once])) = true.
Proof.
  apply (registry_stays_well_formed
           [AddTrigger "mail-ops" mail_trigger;
            RemoveTrigger "user-welcome";
            AddTrigger "mail-ops" limited_once]).
Defined.

Lemma stats_never_decrease_witness :
  stats_le (stats_of (initialize __init__ ∅) "critical-alert")
    (stats_of (snd (fst (process_event (initialize __init__ ∅) calm_world
                           alert_severity_9 "generic"))) "critical-alert").
Proof.
  apply (stats_never_decrease (initialize __init__ ∅) calm_world
           alert_severity_9 "generic" "critical-alert").
Defined.

(** ** The [in] and [not_in] operators *)

Lemma existsb_py_eq_strings (s : string) (ss : list string) :
  existsb (py_eq (VStr s)) (map VStr ss) = true <-> In s ss.
Proof.
  induction ss as [|s' ss IH]; cbn [map existsb In]; [done|].
  rewrite orb_true_iff, IH.
  change (py_eq (VStr s) (VStr s')) with (String.eqb s s').
  rewrite String.eqb_eq. split; intros [H | H]; auto.
Qed.

(** [in] follows the type of the literal. Against a list it never raises
    and tests equality with an element: a string field is found in a list
    of strings exactly when it is one of them. Against a string literal it
    is a substring test of the field in the literal. Against a number, a
    boolean or [None] it raises [TypeError]. [not_in] is the negation where
    [in] answers and raises where [in] raises. *)
Theorem in_operator_behaviour (f : string) (lit : any) (ev : EventPayload) :
  (forall l, lit = VList l ->
     _evaluate_condition (mk_condition f IN lit) ev
       = Ret (existsb (py_eq (_extract_value f ev)) l)) /\
  (forall s ss, lit = VList (map VStr ss) -> _extract_value f ev = VStr s ->
     (_evaluate_condition (mk_condition f IN lit) ev = Ret true <-> In s ss)) /\
  (forall s hay, lit = VStr hay -> _extract_value f ev = VStr s ->
     _evaluate_condition (mk_condition f IN lit) ev = Ret (is_substring s hay)) /\
  (num_of lit <> None \/ lit = VNone ->
     _evaluate_condition (mk_condition f IN lit) ev = Raise TypeError) /\
  _evaluate_condition (mk_condition f NOT_IN lit) ev
    = (b <- _evaluate_condition (mk_condition f IN lit) ev ;;; Ret (negb b)).
Proof.
  unfold _evaluate_condition. cbn [field operator value mk_condition].
  repeat apply conj; try reflexivity.
  - by intros l ->.
  - intros s ss -> ->. cbn [py_in]. split.
    + intros [= H]. by apply existsb_py_eq_strings.
    + intros H. f_equal. by apply existsb_py_eq_strings.
  - by intros s hay -> ->.
  - intros [Hnum | ->]; [|done]. by destruct lit.
Qed.

Lemma in_operator_behaviour_witness :
  _evaluate_condition
    (mk_condition "event_type" IN (VList (map VStr ["alert.critical"; "alert.major"])))
    alert_severity_9 = Ret true /\
  _evaluate_condition (mk_condition "event_type" IN (VStr "alert.critical.urgent"))
    alert_severity_9 = Ret true /\
  _evaluate_condition (mk_condition "event_type" IN (VInt 3))
    alert_severity_9 = Raise TypeError.
Proof.
  destruct (in_operator_behaviour "event_type"
              (VList (map VStr ["alert.critical"; "alert.major"]))
              alert_severity_9) as (_ & Hlist & _).
  destruct (in_operator_behaviour "event_type" (VStr "alert.critical.urgent")
              alert_severity_9) as (_ & _ & Hstr & _).
  destruct (in_operator_behaviour "event_type" (VInt 3) alert_severity_9)
    as (_ & _ & _ & Hnum & _).
  split; [|split].
  - apply (Hlist "alert.critical" ["alert.critical"; "alert.major"] eq_refl eq_refl).
    by left.
  - exact (Hstr "alert.critical" "alert.critical.urgent" eq_refl eq_refl).
  - apply Hnum. by left.
Defined.

(** ** The default triggers *)

Section DefaultTriggers.
Variables (eid ty src : string) (ts : Z) (d : list (string * any))
  (md : list (string * string)).

Let ev : EventPayload :=
  {| event_id := eid; event_type := ty; source := src; timestamp := ts;
     data := d; metadata := md |}.

Lemma eval_user_welcome :
  _evaluate_conditions (conditions user_welcome) ev
  = if String.eqb ty "user.created"
    then match get_or_none "email" d with
         | VStr s => Ret (is_substring "@" s)
         | _ => Ret false
         end
    else Ret false.
Proof.
  cbn [conditions user_welcome _evaluate_conditions].
  unfold _evaluate_condition, mk_condition, _extract_value. cbn.
  destruct (String.eqb ty "user.created"); [|done]. cbn.
  destruct (get_or_none "email" d); try done. cbn.
  by destruct (is_substring "@" s).
Qed.

Lemma eval_deployment_notify :
  _evaluate_conditions (conditions deployment_notify) ev
  = if String.eqb ty "deployment.completed"
    then Ret (existsb (py_eq (get_or_none "environment" d))
                [VStr "staging"; VStr "production"])
    else Ret false.
Proof.
  cbn [conditions deployment_notify _evaluate_conditions].
  unfold _evaluate_condition, mk_condition, _extract_value. cbn -[existsb].
  destruct (String.eqb ty "deployment.completed"); [|done]. cbn -[existsb].
  by destruct (existsb _ _).
Qed.

Lemma eval_critical_alert :
  _evaluate_conditions (conditions critical_alert) ev
  = if String.eqb ty "alert.critical"
    then compare_op OpGe (get_or_none "severity" d) (VInt 8)
    else Ret false.
Proof.
  cbn [conditions critical_alert _evaluate_conditions].
  unfold _evaluate_condition, mk_condition, _extract_value. cbn.
  destruct (String.eqb ty "alert.critical"); [|done]. cbn.
  by destruct (compare_op _ _ _) as [[|]|].
Qed.

Lemma eval_data_pipeline :
  _evaluate_conditions (conditions data_pipeline) ev
  = if String.eqb ty "data.file_uploaded"
    then b <- compare_op OpGt (get_or_none "file_size" d) (VInt 1024) ;;;
         Ret (b && existsb (py_eq (get_or_none "file_type" d))
                     [VStr "csv"; VStr "json"; VStr "parquet"])
    else Ret false.
Proof.
  cbn [conditions data_pipeline _evaluate_conditions].
  unfold _evaluate_condition, mk_condition, _extract_value. cbn -[existsb].
  destruct (String.eqb ty "data.file_uploaded"); [|done]. cbn -[existsb].
  destruct (compare_op _ _ _) as [[|]|]; cbn -[existsb]; try done.
  by destruct (existsb _ _).
Qed.
End DefaultTriggers.

Lemma default_matching (ev : EventPayload) :
  (matching_triggers (triggers __init__) ev = Raise TypeError <->
   unordered_severity ev \/ unordered_file_size ev) /\
  (forall ms, matching_triggers (triggers __init__) ev = Ret ms ->
              (length ms <= 1)%nat).
Proof.
  destruct ev as [eid ty src ts d md].
  change (triggers __init__)
    with [("user-welcome", user_welcome);
          ("deployment-notify", deployment_notify);
          ("critical-alert", critical_alert);
          ("data-pipeline", data_pipeline)].
  cbn [matching_triggers].
  rewrite eval_user_welcome, eval_deployment_notify, eval_critical_alert,
    eval_data_pipeline.
  unfold unordered_severity, unordered_file_size, compare_op.
  cbn [event_type data].
  destruct (String.eqb_spec ty "user.created") as [-> | N1].
  { cbn -[existsb].
    assert (Hb : exists b,
               match get_or_none "email" d with
               | VStr s => Ret (is_substring "@" s)
               | _ => Ret false
               end = Ret b)
      by (destruct (get_or_none "email" d); by eexists).
    destruct Hb as [b ->]. cbn. split.
    - split; [discriminate | intros [[H _] | [H _]]; discriminate].
    - intros ms [= <-]. destruct b; cbn; lia. }
  destruct (String.eqb_spec ty "deployment.completed") as [-> | N2].
  { cbn -[existsb]. split.
    - split; [discriminate | intros [[H _] | [H _]]; discriminate].
    - intros ms [= <-].
      match goal with |- context [if ?b then _ else _] => destruct b end;
        cbn; lia. }
  destruct (String.eqb_spec ty "alert.critical") as [-> | N3].
  { cbn -[existsb].
    destruct (py_order OpGe (get_or_none "severity" d) (VInt 8)) as [r|];
      cbn; split.
    - split; [discriminate | intros [[_ H] | [H _]]; discriminate].
    - intros ms [= <-]. destruct r; cbn; lia.
    - split; [intros _; by left | done].
    - discriminate. }
  destruct (String.eqb_spec ty "data.file_uploaded") as [-> | N4].
  { cbn -[existsb].
    destruct (py_order OpGt (get_or_none "file_size" d) (VInt 1024)) as [r|];
      cbn -[existsb]; split.
    - split; [discriminate | intros [[H _] | [_ H]]; discriminate].
    - intros ms [= <-].
      match goal with |- context [if ?b then _ else _] => destruct b end;
        cbn; lia.
    - split; [intros _; by right | done].
    - discriminate. }
  cbn. split.
  - split; [discriminate | intros [[H _] | [H _]]; congruence].
  - intros ms [= <-]. cbn. lia.
Qed.

(** The default triggers on any event. [process_event] on a handler that
    holds the four default triggers raises exactly for an ["alert.critical"]
    event whose [severity] does not compare with 8 and for a
    ["data.file_uploaded"] event whose [file_size] does not compare with
    1024 (absent, [None], a string, ...); and no event runs more than one
    of the four triggers. *)
Theorem default_triggers_on_event (h : TriggerHandler) (w : world)
  (ev : EventPayload) (source : string) :
  triggers h = triggers __init__ ->
  (fst (fst (process_event h w ev source)) = Raise TypeError <->
   unordered_severity ev \/ unordered_file_size ev) /\
  (length (snd (process_event h w ev source)) <= 1)%nat.
Proof.
  intros Htr. destruct (default_matching ev) as [Hraise Hone].
  unfold process_event. rewrite Htr.
  destruct (matching_triggers (triggers __init__) ev) as [ms|e] eqn:Hm.
  - destruct (execute_matching_names w ev ms h 0%nat) as [Hn _].
    destruct (execute_matching h w 0 ms ev) as [h' tr]. cbn [fst snd] in *.
    split.
    + rewrite <- Hraise. split; discriminate.
    + apply (f_equal (@length string)) in Hn.
      rewrite !length_map in Hn. rewrite Hn. by apply Hone.
  - cbn [fst snd]. rewrite (matching_raise_type_error ev _ _ Hm) in *.
    split; [|cbn; lia]. by rewrite <- Hraise.
Qed.

Lemma default_triggers_on_event_witness :
  fst (fst (process_event (initialize __init__ ∅) calm_world
              alert_without_severity "generic")) = Raise TypeError.
Proof.
  apply (default_triggers_on_event (initialize __init__ ∅) calm_world
           alert_without_severity "generic" eq_refl).
  left. split; reflexivity.
Defined.
